(** * Design-pattern demonstrations: a shallow embedding and its properties

    Each demo of the repository is a small C++ program.  Objects become
    records or inductive values, a pointer that may be null becomes an
    [option], [std::cout] becomes the list of the chunks of text written so
    far, and a method that changes its object returns the new object
    together with what it printed. *)

From Stdlib Require Import ZArith QArith Qround Floats Lia.
From stdpp Require Import base option list sorting gmap strings pretty.

(** ** The console *)

(** What a call writes to [std::cout], oldest text first: one element for
    each output statement, holding the text of the whole statement. *)
Abbreviation stdout := (list string).

(** The line feed written by ["\n"] and by [std::endl]. *)
Definition nl : string := String (Ascii.ascii_of_nat 10) EmptyString.

(** The number of times [line] was written. *)
Definition printed (line : string) (out : stdout) : nat :=
  length (filter (λ l, l = line) out).

(** ** Observer (observer.cpp) *)

Module Observer.

(** [Observer*]: the address of an observer object. *)
Definition ObserverPtr := nat.

(** [class Observer]: the one virtual operation, called through a
    pointer.  [W] is whatever the observers can change. *)
Class Observer (W : Type) := update : ObserverPtr → string → W → W.

(** [class NewsAgency]: the registry and the subject state. *)
Record NewsAgency := mkNewsAgency {
  observers : list ObserverPtr;
  latestNews : string
}.

(** A default-constructed agency. *)
Definition newsAgency : NewsAgency := mkNewsAgency [] "".

(** [observers.push_back(observer)] *)
Definition attach (observer : ObserverPtr) (a : NewsAgency) : NewsAgency :=
  mkNewsAgency (observers a ++ [observer]) (latestNews a).

(** [std::remove(first, last, value)]: the elements different from
    [value] are moved to the front in their order; the result is the
    range with the position of its new logical end.  Past that
    position the elements are left as they were. *)
Definition std_remove (value : ObserverPtr) (l : list ObserverPtr)
  : list ObserverPtr * nat :=
  let kept := filter (λ x, x ≠ value) l in
  (kept ++ drop (length kept) l, length kept).

(** [v.erase(pos, v.end())] *)
Definition erase_to_end (pos : nat) (l : list ObserverPtr) : list ObserverPtr :=
  take pos l.

(** [observers.erase(std::remove(begin, end, observer), end)] *)
Definition detach (observer : ObserverPtr) (a : NewsAgency) : NewsAgency :=
  let '(moved, new_end) := std_remove observer (observers a) in
  mkNewsAgency (erase_to_end new_end moved) (latestNews a).

(** [for (Observer* observer : observers) observer->update(latestNews);] *)
Definition notify `{Observer W} (a : NewsAgency) (w : W) : W :=
  foldl (λ w observer, update observer (latestNews a) w) w (observers a).

(** [latestNews = news; notify();] *)
Definition setNews `{Observer W} (news : string) (a : NewsAgency) (w : W)
  : NewsAgency * W :=
  let a' := mkNewsAgency (observers a) news in
  (a', notify a' w).

(** Attaching the observers of [os] one after the other. *)
Definition attach_all (os : list ObserverPtr) (a : NewsAgency) : NewsAgency :=
  foldl (λ a o, attach o a) a os.

(** An observer that records every call of [update] it receives: the
    world is the sequence of (observer, message) deliveries. *)
Definition deliveries := list (ObserverPtr * string).

Definition recording : Observer deliveries :=
  λ o message log, log ++ [(o, message)].

(** The registry after a detach as the specification words it, for
    comparison with [detach]: the first reference equal to [observer]
    is removed, the others stay. *)
Fixpoint detach_first_match (observer : ObserverPtr) (l : list ObserverPtr)
  : list ObserverPtr :=
  match l with
  | [] => []
  | x :: l => if decide (x = observer) then l else x :: detach_first_match observer l
  end.

(** [class Subscriber]: an observer that prints.  The world is the
    subscribers' names by address, and the console.  A pointer to no
    subscriber has no call to make; the demo has none. *)
Record Console := mkConsole {
  subscribers : gmap ObserverPtr string;
  cout : stdout
}.

Definition Subscriber_update : Observer Console :=
  λ o message w,
    match subscribers w !! o with
    | Some name =>
        mkConsole (subscribers w)
          (cout w ++ [name +:+ " received update: " +:+ message +:+ nl])
    | None => w
    end.

(** [main] of observer.cpp: alice, bob and charlie live at addresses
    0, 1 and 2. *)
Definition main : stdout :=
  let alice := 0 in
  let bob := 1 in
  let charlie := 2 in
  let w := mkConsole
             (<[alice := "Alice"]> (<[bob := "Bob"]> (<[charlie := "Charlie"]> ∅))) [] in
  let agency := newsAgency in
  let agency := attach alice agency in
  let agency := attach bob agency in
  let '(agency, w) :=
    setNews (H := Subscriber_update)
      "Breaking News: Observer Pattern Implemented!" agency w in
  let agency := detach bob agency in
  let '(agency, w) :=
    setNews (H := Subscriber_update)
      "Update: Observer Pattern is Awesome!" agency w in
  cout w.

End Observer.


(** ** Strategy (strategy.cpp) *)

Module Strategy.

(** The concrete strategies behind [RouteStrategy]. *)
Inductive RouteStrategy := ShortestRoute | FastestRoute | ScenicRoute.

Definition calculateRoute (s : RouteStrategy) : stdout :=
  match s with
  | ShortestRoute => ["Calculating the shortest route." +:+ nl]
  | FastestRoute => ["Calculating the fastest route." +:+ nl]
  | ScenicRoute => ["Calculating the scenic route." +:+ nl]
  end.

(** [std::shared_ptr<RouteStrategy> strategy]: [None] is the empty
    pointer of a default-constructed navigator. *)
Record GPSNavigator := mkGPSNavigator {
  strategy : option RouteStrategy
}.

Definition gpsNavigator : GPSNavigator := mkGPSNavigator None.

Definition setStrategy (newStrategy : option RouteStrategy) (g : GPSNavigator)
  : GPSNavigator :=
  mkGPSNavigator newStrategy.

(** [navigate() const]: the navigator after the call, and the output. *)
Definition navigate (g : GPSNavigator) : GPSNavigator * stdout :=
  match strategy g with
  | Some s => (g, calculateRoute s)
  | None => (g, ["No strategy set." +:+ nl])
  end.

Definition main : stdout :=
  let navigator := gpsNavigator in
  let navigator := setStrategy (Some ShortestRoute) navigator in
  let '(navigator, out1) := navigate navigator in
  let navigator := setStrategy (Some FastestRoute) navigator in
  let '(navigator, out2) := navigate navigator in
  let navigator := setStrategy (Some ScenicRoute) navigator in
  let '(navigator, out3) := navigate navigator in
  out1 ++ out2 ++ out3.

End Strategy.

(** ** Command (command.cpp) *)

Module Command.

(** [Light*]: the receiver, an object without fields. *)
Definition LightPtr := nat.

Definition turnOn (light : LightPtr) : stdout := ["Light is ON" +:+ nl].
Definition turnOff (light : LightPtr) : stdout := ["Light is OFF" +:+ nl].

Inductive Command :=
| LightOnCommand (light : LightPtr)
| LightOffCommand (light : LightPtr).

Definition execute (c : Command) : stdout :=
  match c with
  | LightOnCommand light => turnOn light
  | LightOffCommand light => turnOff light
  end.

Definition undo (c : Command) : stdout :=
  match c with
  | LightOnCommand light => turnOff light
  | LightOffCommand light => turnOn light
  end.

(** [std::shared_ptr<Command> command], empty at construction. *)
Record RemoteControl := mkRemoteControl {
  command : option Command
}.

Definition remoteControl : RemoteControl := mkRemoteControl None.

Definition setCommand (cmd : option Command) (r : RemoteControl) : RemoteControl :=
  mkRemoteControl cmd.

(** [if (command) { command->execute(); }] *)
Definition pressButton (r : RemoteControl) : RemoteControl * stdout :=
  match command r with
  | Some c => (r, execute c)
  | None => (r, [])
  end.

(** [if (command) { command->undo(); }] *)
Definition pressUndo (r : RemoteControl) : RemoteControl * stdout :=
  match command r with
  | Some c => (r, undo c)
  | None => (r, [])
  end.

Definition main : stdout :=
  let livingRoomLight := 0 in
  let lightOn := LightOnCommand livingRoomLight in
  let lightOff := LightOffCommand livingRoomLight in
  let remote := remoteControl in
  let remote := setCommand (Some lightOn) remote in
  let '(remote, out1) := pressButton remote in
  let '(remote, out2) := pressUndo remote in
  let remote := setCommand (Some lightOff) remote in
  let '(remote, out3) := pressButton remote in
  let '(remote, out4) := pressUndo remote in
  out1 ++ out2 ++ out3 ++ out4.

End Command.

(** ** Delegate (delegate.cpp) *)

Module Delegate.

Inductive PrintStrategy := ConsolePrint | FilePrint.

(** [std::cout << "..." << text << std::endl] *)
Definition PrintStrategy_print (s : PrintStrategy) (text : string) : stdout :=
  match s with
  | ConsolePrint => ["Printing to console: " +:+ text +:+ nl]
  | FilePrint => ["Saving to file: " +:+ text +:+ nl]
  end.

Record Printer := mkPrinter {
  strategy : option PrintStrategy
}.

Definition printer : Printer := mkPrinter None.

Definition setPrintStrategy (newStrategy : option PrintStrategy) (p : Printer)
  : Printer :=
  mkPrinter newStrategy.

Definition print (text : string) (p : Printer) : Printer * stdout :=
  match strategy p with
  | Some s => (p, PrintStrategy_print s text)
  | None => (p, ["No print strategy set!" +:+ nl])
  end.

Definition main : stdout :=
  let p := printer in
  let p := setPrintStrategy (Some ConsolePrint) p in
  let '(p, out1) := print "Hello, Console!" p in
  let p := setPrintStrategy (Some FilePrint) p in
  let '(p, out2) := print "Hello, File!" p in
  out1 ++ out2.

End Delegate.

(** ** Composite (composite.cpp) *)

Module Composite.

(** [Employee] and its three concrete classes.  A manager holds the
    sequence of its team members; a value of this type is the tree the
    pointers form when [showDetails] is called, finite and so without
    a cycle. *)
#[local] Set Warnings "-register-all".
Inductive Employee :=
| Developer (name position : string)
| Designer (name position : string)
| Manager (name : string) (team : list Employee).

(** [team.push_back(employee)], a member of [Manager] only. *)
Definition addEmployee (employee : Employee) (m : Employee) : Employee :=
  match m with
  | Manager name team => Manager name (team ++ [employee])
  | _ => m
  end.

Fixpoint showDetails (e : Employee) : stdout :=
  match e with
  | Developer name position =>
      ["Developer: " +:+ name +:+ ", Position: " +:+ position +:+ nl]
  | Designer name position =>
      ["Designer: " +:+ name +:+ ", Position: " +:+ position +:+ nl]
  | Manager name team =>
      ("Manager: " +:+ name +:+ nl)
      :: (fix each (team : list Employee) : stdout :=
            match team with
            | [] => []
            | employee :: team => showDetails employee ++ each team
            end) team
  end.

(** *** The objects behind a tree *)

(** [std::shared_ptr<Employee>] when not empty: the address of an
    employee object.  The store holds the objects made so far, each at
    the position equal to its address; a manager object holds the
    addresses of its team. *)
Definition EmployeePtr := nat.

Inductive Object :=
| DeveloperObject (name position : string)
| DesignerObject (name position : string)
| ManagerObject (name : string) (team : list EmployeePtr).

Abbreviation Store := (list Object).

(** [std::make_shared<T>(...)]: a new object at the next address. *)
Definition make_shared (o : Object) (st : Store) : EmployeePtr * Store :=
  (length st, st ++ [o]).

(** [manager->addEmployee(employee)]: the object at [manager] changes,
    for everyone who points to it. *)
Definition addEmployee_at (manager employee : EmployeePtr) (st : Store) : Store :=
  match st !! manager with
  | Some (ManagerObject name team) =>
      <[manager := ManagerObject name (team ++ [employee])]> st
  | _ => st
  end.

(** [p->showDetails()], with at most [fuel] calls nested in each other:
    [None] when that is not enough, or when a pointer leads nowhere. *)
Fixpoint showDetails_at (fuel : nat) (st : Store) (p : EmployeePtr)
  : option stdout :=
  match fuel with
  | 0 => None
  | S fuel =>
      match st !! p with
      | Some (DeveloperObject name position) =>
          Some ["Developer: " +:+ name +:+ ", Position: " +:+ position +:+ nl]
      | Some (DesignerObject name position) =>
          Some ["Designer: " +:+ name +:+ ", Position: " +:+ position +:+ nl]
      | Some (ManagerObject name team) =>
          outs ← mapM (showDetails_at fuel st) team;
          Some (("Manager: " +:+ name +:+ nl) :: concat outs)
      | None => None
      end
  end.

Definition main : option stdout :=
  let st : Store := [] in
  let '(dev1, st) :=
    make_shared (DeveloperObject "Alice" "Frontend Developer") st in
  let '(dev2, st) :=
    make_shared (DeveloperObject "Bob" "Backend Developer") st in
  let '(designer, st) :=
    make_shared (DesignerObject "Charlie" "UX Designer") st in
  let '(teamLead, st) := make_shared (ManagerObject "Team Lead" []) st in
  let st := addEmployee_at teamLead dev1 st in
  let st := addEmployee_at teamLead dev2 st in
  let st := addEmployee_at teamLead designer st in
  let '(generalManager, st) :=
    make_shared (ManagerObject "General Manager" []) st in
  let st := addEmployee_at generalManager teamLead st in
  showDetails_at (length st) st generalManager.

(** [represents st e p]: from the object at [p], the pointers of the
    store [st] form the tree [e]. *)
Fixpoint represents (st : Store) (e : Employee) (p : EmployeePtr) : Prop :=
  match e with
  | Developer name position => st !! p = Some (DeveloperObject name position)
  | Designer name position => st !! p = Some (DesignerObject name position)
  | Manager name team =>
      ∃ ptrs, st !! p = Some (ManagerObject name ptrs)
              ∧ (fix all (team : list Employee) (ptrs : list EmployeePtr) : Prop :=
                   match team, ptrs with
                   | [], [] => True
                   | c :: team, q :: ptrs => represents st c q ∧ all team ptrs
                   | _, _ => False
                   end) team ptrs
  end.

(** The number of nodes on the longest way down from the root. *)
Fixpoint height (e : Employee) : nat :=
  match e with
  | Manager _ team =>
      S ((fix highest (team : list Employee) : nat :=
            match team with
            | [] => 0
            | c :: team => height c `max` highest team
            end) team)
  | _ => 1
  end.

(** *** The vocabulary of the traversal property *)

(** A node is addressed by the path from the root: the index of the
    child to enter at each level. *)
Abbreviation path := (list nat).

Fixpoint subtree (e : Employee) (p : path) : option Employee :=
  match p with
  | [] => Some e
  | i :: p =>
      match e with
      | Manager _ team =>
          match team !! i with
          | Some child => subtree child p
          | None => None
          end
      | _ => None
      end
  end.

(** The line a node prints for itself. *)
Definition headline (e : Employee) : string :=
  match e with
  | Developer name position =>
      "Developer: " +:+ name +:+ ", Position: " +:+ position +:+ nl
  | Designer name position =>
      "Designer: " +:+ name +:+ ", Position: " +:+ position +:+ nl
  | Manager name _ => "Manager: " +:+ name +:+ nl
  end.

(** The number of nodes. *)
Fixpoint size (e : Employee) : nat :=
  match e with
  | Manager _ team =>
      S ((fix sum (team : list Employee) : nat :=
            match team with
            | [] => 0
            | c :: team => size c + sum team
            end) team)
  | _ => 1
  end.

(** [before p q]: [p] is a proper ancestor of [q], or the two paths
    part at some node where [p] enters an earlier child than [q]. *)
Definition before (p q : path) : Prop :=
  (∃ i s, q = p ++ i :: s)
  ∨ (∃ r i j s t, p = r ++ i :: s ∧ q = r ++ j :: t ∧ i < j).

(** The paths of all nodes, listed root first, then child by child. *)
Fixpoint positions (e : Employee) : list path :=
  [] :: match e with
        | Manager _ team =>
            (fix each (i : nat) (team : list Employee) : list path :=
               match team with
               | [] => []
               | c :: team => (cons i <$> positions c) ++ each (S i) team
               end) 0 team
        | _ => []
        end.

(** The line printed for the node at [p], when there is one. *)
Definition line_at (e : Employee) (p : path) : option string :=
  headline <$> subtree e p.

(** The loops over a team, by name. *)
Definition showTeam (team : list Employee) : stdout :=
  concat (showDetails <$> team).

Fixpoint teamPositions (i : nat) (team : list Employee) : list path :=
  match team with
  | [] => []
  | c :: team => (cons i <$> positions c) ++ teamPositions (S i) team
  end.

Fixpoint teamSize (team : list Employee) : nat :=
  match team with
  | [] => 0
  | c :: team => size c + teamSize team
  end.

Fixpoint teamHeight (team : list Employee) : nat :=
  match team with
  | [] => 0
  | c :: team => height c `max` teamHeight team
  end.

(** [child st p q]: the object at [p] is a manager whose team has the
    pointer [q]. *)
Definition child (st : Store) (p q : EmployeePtr) : Prop :=
  ∃ name team, st !! p = Some (ManagerObject name team) ∧ q ∈ team.

End Composite.


(** ** Factory (factory.cpp, the simple factory) *)

Module Factory.

(** The exceptions a call can leave with. *)
Inductive exception :=
| invalid_argument (what : string).

(** A call either returns a value or throws. *)
Inductive outcome (A : Type) :=
| Returns (a : A)
| Throws (e : exception).
Arguments Returns {A} a.
Arguments Throws {A} e.

(** Running [k] on the value of [c]; an exception thrown by [c] is not
    caught and goes on to the caller. *)
Definition and_then {A B} (c : outcome A) (k : A → outcome B) : outcome B :=
  match c with
  | Returns a => k a
  | Throws e => Throws e
  end.

Inductive Car := Sedan | SUV | SportsCar.

Definition drive (c : Car) : stdout :=
  match c with
  | Sedan => ["Driving a Sedan." +:+ nl]
  | SUV => ["Driving an SUV." +:+ nl]
  | SportsCar => ["Driving a Sports Car." +:+ nl]
  end.

Definition createCar (type : string) : outcome Car :=
  if String.eqb type "Sedan" then Returns Sedan
  else if String.eqb type "SUV" then Returns SUV
  else if String.eqb type "SportsCar" then Returns SportsCar
  else Throws (invalid_argument "Unknown car type").

Definition main : outcome stdout :=
  and_then (createCar "Sedan") (λ sedan,
  and_then (createCar "SUV") (λ suv,
  Returns (drive sedan ++ drive suv))).

End Factory.

(** ** Proxy (proxy.cpp) *)

Module Proxy.

Record RealImage := mkRealImage {
  RealImage_fileName : string
}.

Definition loadFromDisk (file : string) : stdout :=
  ["Loading image from disk: " +:+ file +:+ nl].

(** The constructor: the object, and what constructing it prints. *)
Definition RealImage_new (file : string) : RealImage * stdout :=
  let this := mkRealImage file in
  (this, loadFromDisk (RealImage_fileName this)).

Definition RealImage_display (this : RealImage) : stdout :=
  ["Displaying image: " +:+ RealImage_fileName this +:+ nl].

(** [RealImage* realImage]: [None] is [nullptr]; the proxy is the only
    owner of the object it points to. *)
Record ProxyImage := mkProxyImage {
  fileName : string;
  realImage : option RealImage
}.

Definition ProxyImage_new (file : string) : ProxyImage :=
  mkProxyImage file None.

Definition display (this : ProxyImage) : ProxyImage * stdout :=
  let '(this, out) :=
    match realImage this with
    | None =>
        let '(real, out) := RealImage_new (fileName this) in
        (mkProxyImage (fileName this) (Some real), out)
    | Some _ => (this, [])
    end in
  match realImage this with
  | Some real => (this, out ++ RealImage_display real)
  | None => (this, out)   (* not reached: the pointer is set by now *)
  end.

(** [n] calls of [display] in a row: the proxy at the end and the
    output of each call. *)
Fixpoint displays (n : nat) (this : ProxyImage) : ProxyImage * list stdout :=
  match n with
  | 0 => (this, [])
  | S n =>
      let '(this, out) := display this in
      let '(this, outs) := displays n this in
      (this, out :: outs)
  end.

Definition main : stdout :=
  let proxyImage := ProxyImage_new "test_image.jpg" in
  let out0 := ["Image is not yet loaded." +:+ nl] in
  let '(proxyImage, out1) := display proxyImage in
  let '(proxyImage, out2) := display proxyImage in
  out0 ++ out1 ++ out2.

End Proxy.

(** ** Singleton (singleton.cpp) *)

Module Singleton.

(** [Singleton*] when not null: the address of an object. *)
Definition SingletonPtr := nat.

(** The state of the process the class depends on: the static member
    [instance] ([None] is [nullptr]), the number of [Singleton]
    objects allocated so far, and the console.  [new] places the next
    object at the next address, and nothing is ever freed. *)
Record Process := mkProcess {
  instance : option SingletonPtr;
  allocated : nat;
  cout : stdout
}.

(** [Singleton* Singleton::instance = nullptr;] *)
Definition start : Process := mkProcess None 0 [].

Definition created : string := "Singleton instance created." +:+ nl.

(** [new Singleton()]: the constructor prints. *)
Definition Singleton_new (p : Process) : SingletonPtr * Process :=
  (allocated p,
   mkProcess (instance p) (S (allocated p)) (cout p ++ [created])).

Definition getInstance (p : Process) : option SingletonPtr * Process :=
  let p :=
    match instance p with
    | None =>
        let '(a, p) := Singleton_new p in
        mkProcess (Some a) (allocated p) (cout p)
    | Some _ => p
    end in
  (instance p, p).

(** [n] calls in a row: what each call returned, and the final state. *)
Fixpoint calls (n : nat) (p : Process) : list (option SingletonPtr) * Process :=
  match n with
  | 0 => ([], p)
  | S n =>
      let '(r, p) := getInstance p in
      let '(rs, p) := calls n p in
      (r :: rs, p)
  end.

Definition displayMessage (this : SingletonPtr) : stdout :=
  ["This is the Singleton instance." +:+ nl].

Definition main : stdout :=
  let p := start in
  let '(s1, p) := getInstance p in
  let p := mkProcess (instance p) (allocated p)
             (cout p ++ from_option displayMessage [] s1) in
  let '(s2, p) := getInstance p in
  let p := if decide (s1 = s2)
           then mkProcess (instance p) (allocated p)
                  (cout p ++ ["Both instances are the same." +:+ nl])
           else p in
  cout p.

(** [instance] is null or points to an object that was allocated. *)
Definition instance_valid (p : Process) : Prop :=
  ∀ a, instance p = Some a → a < allocated p.

End Singleton.

(** ** Thread-safe Singleton (singleton.cpp, second part) *)

Module ThreadSafeSingleton.

Definition SingletonPtr := nat.

Definition created : string := "Thread-safe Singleton instance created." +:+ nl.

(** What the threads share: the static members [instance] ([None] is
    [nullptr]) and [mtx] (the thread that owns the mutex, [None] when it
    is unlocked), the number of objects allocated so far, the console. *)
Record Shared := mkShared {
  instance : option SingletonPtr;
  mtx : option nat;
  allocated : nat;
  cout : stdout
}.

(** Where a thread stands in its call of [getInstance]. *)
Inductive pc :=
| AtLock                              (* before [lock_guard lock(mtx)] *)
| AtTest                              (* before [instance == nullptr] *)
| AtNew                               (* before [new ThreadSafeSingleton()] *)
| AtAssign (a : SingletonPtr)         (* before [instance = ...] *)
| AtReturn                            (* before [return instance] *)
| AtUnlock (r : option SingletonPtr)  (* before the guard's destructor *)
| Returned (r : option SingletonPtr). (* the call is over, with result [r] *)

Record Config := mkConfig {
  shared : Shared;
  threads : list pc
}.

(** [n] threads, each about to call [getInstance], before any call of
    it was made. *)
Definition init (n : nat) : Config :=
  mkConfig (mkShared None None 0 []) (replicate n AtLock).

(** One step of thread [i] standing at [at_]: the shared state after the
    step and the thread's next position; [None] when the thread cannot
    move, because it waits for the mutex or its call is over. *)
Definition step_pc (i : nat) (s : Shared) (at_ : pc) : option (Shared * pc) :=
  match at_ with
  | AtLock =>
      match mtx s with
      | Some _ => None
      | None => Some (mkShared (instance s) (Some i) (allocated s) (cout s), AtTest)
      end
  | AtTest =>
      match instance s with
      | None => Some (s, AtNew)
      | Some _ => Some (s, AtReturn)
      end
  | AtNew =>
      Some (mkShared (instance s) (mtx s) (S (allocated s)) (cout s ++ [created]),
            AtAssign (allocated s))
  | AtAssign a =>
      Some (mkShared (Some a) (mtx s) (allocated s) (cout s), AtReturn)
  | AtReturn => Some (s, AtUnlock (instance s))
  | AtUnlock r =>
      Some (mkShared (instance s) None (allocated s) (cout s), Returned r)
  | Returned _ => None
  end.

(** Thread [i] takes its next step. *)
Definition step_thread (i : nat) (c : Config) : option Config :=
  match threads c !! i with
  | Some at_ =>
      match step_pc i (shared c) at_ with
      | Some (s, at_') => Some (mkConfig s (<[i := at_']> (threads c)))
      | None => None
      end
  | None => None
  end.

(** A schedule names the thread to run at each moment; a thread that
    cannot move when its turn comes leaves everything as it is. *)
Fixpoint run (schedule : list nat) (c : Config) : Config :=
  match schedule with
  | [] => c
  | i :: schedule => run schedule (default c (step_thread i c))
  end.

Definition displayMessage (this : SingletonPtr) : stdout :=
  ["This is the thread-safe Singleton instance." +:+ nl].

(** [main]: one thread, which makes its call and uses the result. *)
Definition main : stdout :=
  let c := run [0; 0; 0; 0; 0; 0] (init 1) in
  match threads c !! 0 with
  | Some (Returned (Some s1)) => cout (shared c) ++ displayMessage s1
  | _ => cout (shared c)
  end.

(** *** The vocabulary of the properties *)

(** Every call is over. *)
Definition finished (c : Config) : Prop :=
  ∀ i at_, threads c !! i = Some at_ → ∃ r, at_ = Returned r.

(** The positions between the construction of the guard and its
    destruction: the check-and-construct step. *)
Definition in_critical_section (at_ : pc) : bool :=
  match at_ with
  | AtLock | Returned _ => false
  | _ => true
  end.

(** What a thread at a position can rely on. *)
Definition consistent (s : Shared) (at_ : pc) : Prop :=
  match at_ with
  | AtLock | AtTest => True
  | AtNew => instance s = None ∧ allocated s = 0
  | AtAssign a => a = 0 ∧ instance s = None ∧ allocated s = 1
  | AtReturn => instance s = Some 0
  | AtUnlock r | Returned r => r = Some 0 ∧ instance s = Some 0
  end.

Record invariant (c : Config) : Prop := mkInvariant {
  inv_owner : ∀ i at_, threads c !! i = Some at_ →
    (in_critical_section at_ = true ↔ mtx (shared c) = Some i);
  inv_owner_lives : ∀ i, mtx (shared c) = Some i → is_Some (threads c !! i);
  inv_cout : cout (shared c) = replicate (allocated (shared c)) created;
  inv_consistent : ∀ i at_, threads c !! i = Some at_ → consistent (shared c) at_;
  inv_instance :
    match instance (shared c) with
    | Some a => a = 0 ∧ allocated (shared c) = 1
    | None => allocated (shared c) = 0 ∨ ∃ i, threads c !! i = Some (AtAssign 0)
    end
}.

(** The number of steps a thread may still take, at most. *)
Definition steps_left (at_ : pc) : nat :=
  match at_ with
  | AtLock => 6
  | AtTest => 5
  | AtNew => 4
  | AtAssign _ => 3
  | AtReturn => 2
  | AtUnlock _ => 1
  | Returned _ => 0
  end.

(** The steps the threads may still take, all together. *)
Definition work (ts : list pc) : nat := sum_list (steps_left <$> ts).

End ThreadSafeSingleton.

(** ** Decorator (decorator.cpp) *)

Module Decorator.

#[local] Open Scope float_scope.

(** [Coffee] and its concrete classes; a decorator shares the coffee it
    wraps and never changes it. *)
Inductive Coffee :=
| PlainCoffee
| CoffeeDecorator (coffee : Coffee)
| MilkDecorator (coffee : Coffee)
| SugarDecorator (coffee : Coffee)
| CaramelDecorator (coffee : Coffee).

Fixpoint getDescription (c : Coffee) : string :=
  match c with
  | PlainCoffee => "Plain Coffee"
  | CoffeeDecorator coffee => getDescription coffee
  | MilkDecorator coffee => getDescription coffee +:+ ", Milk"
  | SugarDecorator coffee => getDescription coffee +:+ ", Sugar"
  | CaramelDecorator coffee => getDescription coffee +:+ ", Caramel"
  end.

(** [double] is the IEEE 754 binary64 format; a literal is the value of
    the format nearest to it and [+] rounds to nearest, ties to even. *)
#[local] Set Warnings "-inexact-float".
Fixpoint getCost (c : Coffee) : float :=
  match c with
  | PlainCoffee => 2.0
  | CoffeeDecorator coffee => getCost coffee
  | MilkDecorator coffee => getCost coffee + 0.5
  | SugarDecorator coffee => getCost coffee + 0.2
  | CaramelDecorator coffee => getCost coffee + 0.7
  end.

(** The literal [3.4] as a [double]. *)
Definition three_point_four : float := 3.4.
#[local] Set Warnings "inexact-float".

(** The coffee [main] ends with. *)
Definition myCoffee : Coffee :=
  let myCoffee := PlainCoffee in
  let myCoffee := MilkDecorator myCoffee in
  let myCoffee := SugarDecorator myCoffee in
  let myCoffee := CaramelDecorator myCoffee in
  myCoffee.

(** The rational number a finite [double] stands for. *)
Definition value (x : float) : option Q :=
  match Prim2SF x with
  | S754_zero _ => Some 0%Q
  | S754_finite sign m e =>
      let magnitude := (inject_Z (Z.pos m) * Qpower 2 e)%Q in
      Some (if sign then Qopp magnitude else magnitude)
  | _ => None
  end.

(** *** Writing a [double] to the console *)

(** [std::cout << x] with the stream as it is at the start of a program
    is the conversion [%g] of C with precision 6: the value is rounded
    to six significant decimal digits; when the decimal exponent [X] of
    the result is at least -4 and less than 6 it is written in fixed
    notation with [5 - X] digits after the point, and then without the
    zeros at the end and without a point that nothing follows.  The
    other notation, for the other exponents, is left out here. *)

(** The integer nearest to [t], the even one of two at the same
    distance. *)
Definition round_half_even (t : Q) : Z :=
  let n := Qfloor t in
  match Qcompare (t - inject_Z n) (1 # 2) with
  | Lt => n
  | Gt => (n + 1)%Z
  | Eq => if Z.even n then n else (n + 1)%Z
  end.

(** The greatest [X' <= X] with [10^X' <= q], not looking further down
    than [fuel] steps. *)
Fixpoint decimal_exponent (fuel : nat) (X : Z) (q : Q) : Z :=
  match fuel with
  | 0 => X
  | S fuel =>
      if Qle_bool (Qpower 10 X) q then X
      else decimal_exponent fuel (X - 1)%Z q
  end.

(** The digits after the point: [fraction] written with [decimals]
    digits, without the zeros at the end. *)
Fixpoint fraction_digits (decimals : nat) (fraction : Z) : string :=
  match decimals with
  | 0 => ""
  | S decimals' =>
      if (fraction mod 10 =? 0)%Z
      then fraction_digits decimals' (fraction / 10)%Z
      else
        let digits := pretty fraction in
        String.concat "" (replicate (decimals - String.length digits) "0")
        +:+ digits
  end.

Definition show_positive (q : Q) : option string :=
  let X0 := decimal_exponent 11 6 q in
  let N0 := round_half_even (q * Qpower 10 (5 - X0)) in
  let '(X, N) :=
    if (N0 =? 1000000)%Z then ((X0 + 1)%Z, 100000%Z) else (X0, N0) in
  if ((-4 <=? X)%Z && (X <? 6)%Z)%bool then
    let scale := (10 ^ (5 - X))%Z in
    let fraction := fraction_digits (Z.to_nat (5 - X)) (N mod scale)%Z in
    Some (pretty (N / scale)%Z
          +:+ (if String.eqb fraction "" then "" else "." +:+ fraction))
  else None.

Definition show_double (x : float) : option string :=
  match Prim2SF x with
  | S754_zero sign => Some (if sign then "-0" else "0")
  | S754_finite sign m e =>
      shown ← show_positive (inject_Z (Z.pos m) * Qpower 2 e)%Q;
      Some (if sign then "-" +:+ shown else shown)
  | _ => None
  end.

(** [std::cout << myCoffee->getDescription() << " costs $"
              << myCoffee->getCost() << "\n"] *)
Definition show_coffee (c : Coffee) : option stdout :=
  cost ← show_double (getCost c);
  Some [getDescription c +:+ " costs $" +:+ cost +:+ nl].

Definition main : option stdout :=
  let myCoffee := PlainCoffee in
  out1 ← show_coffee myCoffee;
  let myCoffee := MilkDecorator myCoffee in
  out2 ← show_coffee myCoffee;
  let myCoffee := SugarDecorator myCoffee in
  out3 ← show_coffee myCoffee;
  let myCoffee := CaramelDecorator myCoffee in
  out4 ← show_coffee myCoffee;
  Some (out1 ++ out2 ++ out3 ++ out4).

(** *** The vocabulary of the properties *)

(** The decorator classes, the base class among them, and a coffee as
    the sequence of the decorators around the plain coffee, innermost
    first. *)
Inductive Wrapper := Base | Milk | Sugar | Caramel.

Global Instance Wrapper_eq_dec : EqDecision Wrapper.
Proof. solve_decision. Defined.

Definition wrap (w : Wrapper) (c : Coffee) : Coffee :=
  match w with
  | Base => CoffeeDecorator c
  | Milk => MilkDecorator c
  | Sugar => SugarDecorator c
  | Caramel => CaramelDecorator c
  end.

Definition rewrap (ws : list Wrapper) : Coffee :=
  foldl (λ c w, wrap w c) PlainCoffee ws.

Fixpoint wrappers (c : Coffee) : list Wrapper :=
  match c with
  | PlainCoffee => []
  | CoffeeDecorator coffee => wrappers coffee ++ [Base]
  | MilkDecorator coffee => wrappers coffee ++ [Milk]
  | SugarDecorator coffee => wrappers coffee ++ [Sugar]
  | CaramelDecorator coffee => wrappers coffee ++ [Caramel]
  end.

(** What a decorator appends to the description and adds to the
    cost. *)
Definition suffix (w : Wrapper) : string :=
  match w with
  | Base => ""
  | Milk => ", Milk"
  | Sugar => ", Sugar"
  | Caramel => ", Caramel"
  end.

#[local] Set Warnings "-inexact-float".
Definition add_price (w : Wrapper) (cost : float) : float :=
  match w with
  | Base => cost
  | Milk => cost + 0.5
  | Sugar => cost + 0.2
  | Caramel => cost + 0.7
  end.
#[local] Set Warnings "inexact-float".

End Decorator.

(** ** Prototype (prototype.cpp) *)

Module Prototype.

(** The fields of the two concrete shapes; [int] values as integers. *)
Inductive Shape :=
| Circle (radius : Z)
| Rectangle (width height : Z).

(** [std::shared_ptr<Shape>] when not empty: the address of a shape.
    The heap holds the shapes made so far, each at the position equal
    to its address; nothing is freed before [main] ends. *)
Definition ShapePtr := nat.
Abbreviation Heap := (list Shape).

(** [std::make_shared<T>(...)]: a new object at the next address. *)
Definition make_shared (s : Shape) (h : Heap) : ShapePtr * Heap :=
  (length h, h ++ [s]).

(** The copy constructors. *)
Definition Shape_copy (other : Shape) : Shape :=
  match other with
  | Circle radius => Circle radius
  | Rectangle width height => Rectangle width height
  end.

(** [clone() const] of [Circle] and of [Rectangle]: a new shared
    object, copy-constructed from the object itself. *)
Definition Shape_clone (this : Shape) (h : Heap) : ShapePtr * Heap :=
  match this with
  | Circle _ => make_shared (Shape_copy this) h
  | Rectangle _ _ => make_shared (Shape_copy this) h
  end.

Definition Shape_draw (this : Shape) : stdout :=
  match this with
  | Circle radius =>
      ["Drawing a Circle with radius " +:+ pretty radius +:+ nl]
  | Rectangle width height =>
      ["Drawing a Rectangle with width " +:+ pretty width
       +:+ " and height " +:+ pretty height +:+ nl]
  end.

(** [p->clone()] and [p->draw()]: the call is made on the object [p]
    points to; [None] when [p] points to no object. *)
Definition clone (p : ShapePtr) (h : Heap) : option (ShapePtr * Heap) :=
  match h !! p with
  | Some this => Some (Shape_clone this h)
  | None => None
  end.

Definition draw (p : ShapePtr) (h : Heap) : option stdout :=
  match h !! p with
  | Some this => Some (Shape_draw this)
  | None => None
  end.

Definition main : option stdout :=
  let h : Heap := [] in
  let '(circlePrototype, h) := make_shared (Circle 10) h in
  let '(rectanglePrototype, h) := make_shared (Rectangle 5 8) h in
  '(clonedCircle, h) ← clone circlePrototype h;
  out1 ← draw clonedCircle h;
  '(clonedRectangle, h) ← clone rectanglePrototype h;
  out2 ← draw clonedRectangle h;
  Some (out1 ++ out2).


End Prototype.

(** ** Builder (builder.cpp) *)

Module Builder.

(** [class Pizza]; a default-constructed pizza has empty strings and no
    topping. *)
Record Pizza := mkPizza {
  crust : string;
  sauce : string;
  toppings : list string
}.

Definition Pizza_default : Pizza := mkPizza "" "" [].

(** [showPizza]: the first statement, one statement for each topping,
    and the line end. *)
Definition showPizza (this : Pizza) : stdout :=
  ["Pizza with " +:+ crust this +:+ " crust, " +:+ sauce this
   +:+ " sauce, and toppings: "]
  ++ ((λ topping, topping +:+ " ") <$> toppings this)
  ++ [nl].

(** [Pizza*] when not null: the address of a pizza.  The heap holds the
    pizzas made so far, each at the position equal to its address;
    [None] stands where a pizza was deleted. *)
Abbreviation PizzaPtr := nat.
Abbreviation Heap := (list (option Pizza)).

(** [new Pizza()] *)
Definition new_Pizza (h : Heap) : PizzaPtr * Heap :=
  (length h, h ++ [Some Pizza_default]).

(** [delete p]; [None] when [p] points to no pizza any more. *)
Definition delete (p : PizzaPtr) (h : Heap) : option Heap :=
  match h !! p with
  | Some (Some _) => Some (<[p := None]> h)
  | _ => None
  end.

(** A write through [p]; [None] when [p] points to no pizza. *)
Definition write (p : PizzaPtr) (f : Pizza → Pizza) (h : Heap) : option Heap :=
  match h !! p with
  | Some (Some pz) => Some (<[p := Some (f pz)]> h)
  | _ => None
  end.

(** The two concrete builders; each holds the pizza it made when it was
    constructed. *)
Inductive BuilderClass := VeggiePizzaBuilder | MeatLoversPizzaBuilder.

Record PizzaBuilder := mkPizzaBuilder {
  class : BuilderClass;
  pizza : PizzaPtr
}.

(** The constructors: [pizza = new Pizza();] *)
Definition PizzaBuilder_new (c : BuilderClass) (h : Heap) : PizzaBuilder * Heap :=
  let '(p, h) := new_Pizza h in
  (mkPizzaBuilder c p, h).

(** [pizza->crust = "Thin";] and [pizza->crust = "Thick";] *)
Definition setCrust (b : PizzaBuilder) (h : Heap) : option Heap :=
  write (pizza b)
    (λ pz, mkPizza (match class b with
                    | VeggiePizzaBuilder => "Thin"
                    | MeatLoversPizzaBuilder => "Thick"
                    end) (sauce pz) (toppings pz)) h.

Definition setSauce (b : PizzaBuilder) (h : Heap) : option Heap :=
  write (pizza b)
    (λ pz, mkPizza (crust pz)
             (match class b with
              | VeggiePizzaBuilder => "Tomato"
              | MeatLoversPizzaBuilder => "Barbecue"
              end) (toppings pz)) h.

(** [pizza->toppings = {...};]: an assignment, not an addition. *)
Definition addToppings (b : PizzaBuilder) (h : Heap) : option Heap :=
  write (pizza b)
    (λ pz, mkPizza (crust pz) (sauce pz)
             (match class b with
              | VeggiePizzaBuilder => ["Bell Peppers"; "Mushrooms"; "Olives"]
              | MeatLoversPizzaBuilder => ["Pepperoni"; "Sausage"; "Bacon"]
              end)) h.

Definition getPizza (b : PizzaBuilder) : PizzaPtr := pizza b.

(** [PizzaDirector::constructPizza] *)
Definition constructPizza (builder : PizzaBuilder) (h : Heap) : option Heap :=
  h ← setCrust builder h;
  h ← setSauce builder h;
  addToppings builder h.

(** [p->showPizza()] *)
Definition showPizza_at (p : PizzaPtr) (h : Heap) : option stdout :=
  match h !! p with
  | Some (Some this) => Some (showPizza this)
  | _ => None
  end.

(** [main]: the output, and the heap at the end. *)
Definition main : option (stdout * Heap) :=
  let h : Heap := [] in
  let '(veggieBuilder, h) := PizzaBuilder_new VeggiePizzaBuilder h in
  let '(meatLoversBuilder, h) := PizzaBuilder_new MeatLoversPizzaBuilder h in
  h ← constructPizza veggieBuilder h;
  let veggiePizza := getPizza veggieBuilder in
  out1 ← showPizza_at veggiePizza h;
  h ← constructPizza meatLoversBuilder h;
  let meatPizza := getPizza meatLoversBuilder in
  out2 ← showPizza_at meatPizza h;
  h ← delete veggiePizza h;
  h ← delete meatPizza h;
  Some (out1 ++ out2, h).

(** *** The vocabulary of the properties *)

(** The three steps of a builder, and sequences of them. *)
Inductive Step := SetCrust | SetSauce | AddToppings.

Global Instance Step_eq_dec : EqDecision Step.
Proof. solve_decision. Defined.

Definition perform (s : Step) (b : PizzaBuilder) (h : Heap) : option Heap :=
  match s with
  | SetCrust => setCrust b h
  | SetSauce => setSauce b h
  | AddToppings => addToppings b h
  end.

Fixpoint performs (ss : list Step) (b : PizzaBuilder) (h : Heap) : option Heap :=
  match ss with
  | [] => Some h
  | s :: ss => h ← perform s b h; performs ss b h
  end.

(** The pizza of a builder of class [c] that started as [pz] and went
    through the steps [ss]. *)
Definition after_steps (c : BuilderClass) (ss : list Step) (pz : Pizza) : Pizza :=
  mkPizza
    (if bool_decide (SetCrust ∈ ss)
     then match c with
          | VeggiePizzaBuilder => "Thin"
          | MeatLoversPizzaBuilder => "Thick"
          end
     else crust pz)
    (if bool_decide (SetSauce ∈ ss)
     then match c with
          | VeggiePizzaBuilder => "Tomato"
          | MeatLoversPizzaBuilder => "Barbecue"
          end
     else sauce pz)
    (if bool_decide (AddToppings ∈ ss)
     then match c with
          | VeggiePizzaBuilder => ["Bell Peppers"; "Mushrooms"; "Olives"]
          | MeatLoversPizzaBuilder => ["Pepperoni"; "Sausage"; "Bacon"]
          end
     else toppings pz).

End Builder.

(** ** Adapter (adapter.cpp) *)

Module Adapter.

(** The address of an object.  The heap holds the objects made so far,
    each at the position equal to its address; [None] stands where an
    object was deleted. *)
Abbreviation Ptr := nat.

(** [AdvancedMediaPlayer] has no field; a [MediaAdapter] holds
    [advancedPlayer], where [None] is [nullptr]. *)
Inductive Object :=
| AdvancedMediaPlayerObject
| MediaAdapterObject (advancedPlayer : option Ptr).

Abbreviation Heap := (list (option Object)).

Definition new (o : Object) (h : Heap) : Ptr * Heap :=
  (length h, h ++ [Some o]).

Definition playVlc (fileName : string) : stdout :=
  ["Playing VLC file: " +:+ fileName +:+ nl].

Definition playMp4 (fileName : string) : stdout :=
  ["Playing MP4 file: " +:+ fileName +:+ nl].

(** [delete p] for an [AdvancedMediaPlayer*]: nothing to do for
    [nullptr]; [None] when [p] points to no live player. *)
Definition delete_player (p : option Ptr) (h : Heap) : option Heap :=
  match p with
  | None => Some h
  | Some a =>
      match h !! a with
      | Some (Some AdvancedMediaPlayerObject) => Some (<[a := None]> h)
      | _ => None
      end
  end.

(** [new MediaAdapter(audioType)]: the adapter is placed first, then
    its constructor sets [advancedPlayer]. *)
Definition MediaAdapter_new (audioType : string) (h : Heap) : Ptr * Heap :=
  let '(this, h) := new (MediaAdapterObject None) h in
  if String.eqb audioType "vlc" then
    let '(player, h) := new AdvancedMediaPlayerObject h in
    (this, <[this := Some (MediaAdapterObject (Some player))]> h)
  else if String.eqb audioType "mp4" then
    let '(player, h) := new AdvancedMediaPlayerObject h in
    (this, <[this := Some (MediaAdapterObject (Some player))]> h)
  else (this, <[this := Some (MediaAdapterObject None)]> h).

(** A call of a member of the player [advancedPlayer] points to;
    [None] when it points to no live player. *)
Definition on_player (advancedPlayer : option Ptr) (h : Heap) (out : stdout)
  : option stdout :=
  match advancedPlayer with
  | Some p =>
      match h !! p with
      | Some (Some AdvancedMediaPlayerObject) => Some out
      | _ => None
      end
  | None => None
  end.

(** [MediaAdapter::play], called through the pointer [this]. *)
Definition MediaAdapter_play (this : Ptr) (audioType fileName : string) (h : Heap)
  : option stdout :=
  match h !! this with
  | Some (Some (MediaAdapterObject advancedPlayer)) =>
      if String.eqb audioType "vlc" then
        on_player advancedPlayer h (playVlc fileName)
      else if String.eqb audioType "mp4" then
        on_player advancedPlayer h (playMp4 fileName)
      else Some ["Unsupported format: " +:+ audioType +:+ nl]
  | _ => None
  end.

(** [delete adapter]: the destructor deletes the player, then the
    adapter goes. *)
Definition MediaAdapter_delete (this : Ptr) (h : Heap) : option Heap :=
  match h !! this with
  | Some (Some (MediaAdapterObject advancedPlayer)) =>
      h ← delete_player advancedPlayer h;
      Some (<[this := None]> h)
  | _ => None
  end.

(** [class AudioPlayer]: the member [adapter] has no value before the
    first call that sets it, written [None]. *)
Record AudioPlayer := mkAudioPlayer {
  adapter : option Ptr
}.

Definition audioPlayer : AudioPlayer := mkAudioPlayer None.

(** [AudioPlayer::play]: the player and the heap after the call, and
    the output; [None] when a pointer to no live object is used. *)
Definition play (audioType fileName : string) (this : AudioPlayer) (h : Heap)
  : option (AudioPlayer * Heap * stdout) :=
  if String.eqb audioType "mp3" then
    Some (this, h, ["Playing MP3 file: " +:+ fileName +:+ nl])
  else if (String.eqb audioType "vlc" || String.eqb audioType "mp4")%bool then
    let '(a, h) := MediaAdapter_new audioType h in
    let this := mkAudioPlayer (Some a) in
    out ← MediaAdapter_play a audioType fileName h;
    h ← MediaAdapter_delete a h;
    Some (this, h, out)
  else Some (this, h, ["Unsupported format: " +:+ audioType +:+ nl]).

(** The calls of [play] for a list of requests, one after the other. *)
Fixpoint plays (requests : list (string * string)) (this : AudioPlayer) (h : Heap)
  : option (AudioPlayer * Heap * list stdout) :=
  match requests with
  | [] => Some (this, h, [])
  | (audioType, fileName) :: requests =>
      '(this, h, out) ← play audioType fileName this h;
      '(this, h, outs) ← plays requests this h;
      Some (this, h, out :: outs)
  end.

Definition main : option stdout :=
  '(_, _, outs) ← plays [ ("mp3", "song.mp3"); ("mp4", "movie.mp4");
                          ("vlc", "video.vlc"); ("avi", "clip.avi") ]
                     audioPlayer [];
  Some (concat outs).

(** *** The vocabulary of the properties *)

(** The objects that are alive, by address. *)
Definition live (h : Heap) (a : Ptr) : Prop :=
  ∃ o, h !! a = Some (Some o).

(** The formats the adapter passes on. *)
Definition adapted (audioType : string) : Prop :=
  audioType = "vlc" ∨ audioType = "mp4".

(** The line a request is answered with. *)
Definition answer (audioType fileName : string) : string :=
  if String.eqb audioType "mp3" then "Playing MP3 file: " +:+ fileName +:+ nl
  else if String.eqb audioType "vlc" then "Playing VLC file: " +:+ fileName +:+ nl
  else if String.eqb audioType "mp4" then "Playing MP4 file: " +:+ fileName +:+ nl
  else "Unsupported format: " +:+ audioType +:+ nl.

End Adapter.

(** * Properties *)

Module ObserverFacts.
Import Observer.

Lemma detach_observers o a :
  observers (detach o a) = filter (λ x, x ≠ o) (observers a).
Proof.
  unfold detach, std_remove, erase_to_end. simpl.
  by rewrite take_app_length.
Qed.

Lemma detach_latestNews o a : latestNews (detach o a) = latestNews a.
Proof. reflexivity. Qed.

Lemma attach_all_observers os a :
  observers (attach_all os a) = observers a ++ os.
Proof.
  revert a. induction os as [|o os IH]; intros a; simpl.
  - by rewrite app_nil_r.
  - unfold attach_all in *. simpl. rewrite IH. simpl. by rewrite <- app_assoc.
Qed.

Lemma attach_all_latestNews os a :
  latestNews (attach_all os a) = latestNews a.
Proof.
  revert a. induction os as [|o os IH]; intros a; [done|].
  unfold attach_all in *. simpl. by rewrite IH.
Qed.

(** For any kind of observer, a notification pass is the observers'
    updates one after the other, in the order of the list. *)
Lemma notify_app `{Observer W} l1 l2 news (w : W) :
  notify (mkNewsAgency (l1 ++ l2) news) w
  = notify (mkNewsAgency l2 news) (notify (mkNewsAgency l1 news) w).
Proof. unfold notify. simpl. by rewrite foldl_app. Qed.

Lemma notify_recording l news (log : deliveries) :
  notify (H := recording) (mkNewsAgency l news) log
  = log ++ map (λ o, (o, news)) l.
Proof.
  unfold notify. simpl. revert log.
  induction l as [|o l IH]; intros log; simpl.
  - by rewrite app_nil_r.
  - rewrite IH. unfold update, recording. by rewrite <- app_assoc.
Qed.

Lemma count_deliveries (o : ObserverPtr) (v : string) (l : list ObserverPtr) :
  length (filter (λ d, d = (o, v)) (map (λ x, (x, v)) l))
  = length (filter (λ x, x = o) l).
Proof.
  induction l as [|x l IH]; [done|]. simpl.
  rewrite !filter_cons.
  destruct (decide (x = o)) as [->|Hne].
  - rewrite decide_True by done. simpl. by rewrite IH.
  - rewrite decide_False by congruence. done.
Qed.

Lemma count_absent (o : ObserverPtr) (l : list ObserverPtr) :
  o ∉ l → filter (λ x, x = o) l = [].
Proof.
  induction l as [|x l IH]; intros Hnotin; [done|].
  rewrite filter_cons. apply not_elem_of_cons in Hnotin as [Hne Hl].
  rewrite decide_False by congruence. by apply IH.
Qed.

Lemma count_NoDup (o : ObserverPtr) (l : list ObserverPtr) :
  NoDup l → o ∈ l → length (filter (λ x, x = o) l) = 1.
Proof.
  induction 1 as [|x l Hx Hl IH]; intros Hin.
  - by apply elem_of_nil in Hin.
  - rewrite filter_cons. destruct (decide (x = o)) as [->|Hne].
    + simpl. by rewrite count_absent.
    + apply elem_of_cons in Hin as [->|Hin]; [done|]. by apply IH.
Qed.

Lemma filter_remove_NoDup (o : ObserverPtr) (l : list ObserverPtr) :
  NoDup l → o ∈ l →
  S (length (filter (λ x, x ≠ o) l)) = length l.
Proof.
  induction 1 as [|x l Hx Hl IH]; intros Hin.
  - by apply elem_of_nil in Hin.
  - rewrite filter_cons. destruct (decide (x ≠ o)) as [Hne|Heq].
    + apply elem_of_cons in Hin as [->|Hin]; [done|].
      simpl. f_equal. by apply IH.
    + assert (x = o) as -> by (destruct (decide (x = o)); [done|tauto]).
      simpl. f_equal.
      clear IH Hin Heq Hl. induction l as [|y l IH]; [done|].
      apply not_elem_of_cons in Hx as [Hne Hx].
      rewrite filter_cons, decide_True by congruence.
      simpl. f_equal. by apply IH.
Qed.

Lemma filter_other_NoDup (o : ObserverPtr) (l : list ObserverPtr) :
  NoDup l → NoDup (filter (λ x, x ≠ o) l).
Proof. intros Hl. by apply NoDup_filter. Qed.

(** Whatever the observers are, [setNews] stores the news and then runs
    their updates with it, one after the other in the order of the
    registry. *)
Lemma setNews_spec `{Observer W} v a (w : W) :
  setNews v a w
  = (mkNewsAgency (observers a) v,
     foldl (λ w o, update o v w) w (observers a)).
Proof. reflexivity. Qed.

Lemma setNews_recording v a :
  setNews (H := recording) v a []
  = (mkNewsAgency (observers a) v, map (λ x, (x, v)) (observers a)).
Proof.
  unfold setNews. by rewrite notify_recording.
Qed.

(** The deliveries recorded are the calls of [update] that [setNews]
    makes, whatever the observers do with them. *)
Lemma deliveries_replay `{Observer W} v a (w : W) :
  (setNews v a w).2
  = foldl (λ w d, update d.1 d.2 w) w (setNews (H := recording) v a []).2.
Proof.
  rewrite setNews_recording. simpl. unfold notify. simpl.
  by rewrite foldl_fmap.
Qed.

(** Subscribers print one line for each delivery. *)
Lemma notify_subscribers names l news out :
  Forall (λ o, is_Some (names !! o)) l →
  notify (H := Subscriber_update) (mkNewsAgency l news) (mkConsole names out)
  = mkConsole names
      (out ++ ((λ o, default "" (names !! o) +:+ " received update: " +:+ news +:+ nl)
                 <$> l)).
Proof.
  intros Hnames. revert out.
  induction Hnames as [|o l [name Hname] _ IH]; intros out.
  - unfold notify. simpl. by rewrite app_nil_r.
  - unfold notify in *. simpl in *. unfold update at 2, Subscriber_update at 2.
    simpl. rewrite Hname, IH. simpl. by rewrite <- app_assoc.
Qed.

(** The output of the demo is the one its source announces. *)
Example Observer_main_output :
  main = [ "Alice received update: Breaking News: Observer Pattern Implemented!" +:+ nl;
           "Bob received update: Breaking News: Observer Pattern Implemented!" +:+ nl;
           "Alice received update: Update: Observer Pattern is Awesome!" +:+ nl ].
Proof. reflexivity. Qed.

(** C1. After the [k] distinct observers [os] are attached to a new
    agency, [setNews v] stores [v] as the news and, before it returns,
    calls [update] with [v] once for each of them, in the order they were
    attached; after one of them, [o], is detached, [setNews v2] calls
    [update] with [v2] on the [k - 1] others, in the same order, and not
    on [o].  The calls are recorded by a recording observer; whatever
    the observers are, what [setNews v] does to them is their updates
    with [v], one after the other in the order of attachment. *)
Theorem setNews_notifies_attached (os : list ObserverPtr) (o : ObserverPtr)
    (v v2 : string) :
  NoDup os → o ∈ os →
  let a := attach_all os newsAgency in
  let '(a1, log1) := setNews (H := recording) v a [] in
  let '(a2, log2) := setNews (H := recording) v2 (detach o a1) [] in
  latestNews a1 = v
  ∧ log1 = map (λ x, (x, v)) os
  ∧ length log1 = length os
  ∧ (∀ x, x ∈ os → length (filter (λ d, d = (x, v)) log1) = 1)
  ∧ latestNews a2 = v2
  ∧ log2 = map (λ x, (x, v2)) (filter (λ x, x ≠ o) os)
  ∧ S (length log2) = length os
  ∧ (∀ x, x ∈ os → x ≠ o → length (filter (λ d, d = (x, v2)) log2) = 1)
  ∧ (∀ m, (o, m) ∉ log2)
  ∧ (∀ W (H : Observer W) (w : W),
       (setNews v a w).2 = foldl (λ w x, update x v w) w os).
Proof.
  intros Hnodup Hin a.
  rewrite setNews_recording.
  assert (observers a = os) as Hobs.
  { unfold a. by rewrite attach_all_observers. }
  rewrite setNews_recording, detach_observers. simpl. rewrite Hobs.
  repeat split.
  - by rewrite length_map.
  - intros x Hx. rewrite count_deliveries. by apply count_NoDup.
  - rewrite length_map. by apply filter_remove_NoDup.
  - intros x Hx Hne. rewrite count_deliveries.
    apply count_NoDup; [by apply filter_other_NoDup|].
    by apply list_elem_of_filter.
  - intros m Hm. apply list_elem_of_fmap in Hm as (x & Heq & Hx).
    apply list_elem_of_filter in Hx as [Hne _]. congruence.
Qed.

Lemma setNews_notifies_attached_witness :
  let os := [0; 1; 2] in
  let a := attach_all os newsAgency in
  let '(a1, log1) := setNews (H := recording) "first" a [] in
  let '(a2, log2) := setNews (H := recording) "second" (detach 1 a1) [] in
  latestNews a1 = "first"
  ∧ log1 = map (λ x, (x, "first")) os
  ∧ length log1 = length os
  ∧ (∀ x, x ∈ os → length (filter (λ d, d = (x, "first")) log1) = 1)
  ∧ latestNews a2 = "second"
  ∧ log2 = map (λ x, (x, "second")) (filter (λ x, x ≠ 1) os)
  ∧ S (length log2) = length os
  ∧ (∀ x, x ∈ os → x ≠ 1 → length (filter (λ d, d = (x, "second")) log2) = 1)
  ∧ (∀ m, (1, m) ∉ log2)
  ∧ (∀ W (H : Observer W) (w : W),
       (setNews "first" a w).2 = foldl (λ w x, update x "first" w) w os).
Proof.
  apply (setNews_notifies_attached [0; 1; 2] 1 "first" "second").
  - compute_done.
  - compute_done.
Defined.

(** C2, as the code has it.  [detach o] removes every reference equal to
    [o] from the registry and keeps the others in their order; it changes
    nothing when [o] is not attached; an observer attached twice is not
    attached any more after one [detach]. *)
Theorem detach_removes_every_match (o : ObserverPtr) (a : NewsAgency) :
  observers (detach o a) = filter (λ x, x ≠ o) (observers a)
  ∧ latestNews (detach o a) = latestNews a
  ∧ (o ∉ observers (detach o a))
  ∧ (o ∉ observers a → detach o a = a)
  ∧ observers (detach o (attach o (attach o a))) = observers (detach o a).
Proof.
  split; [apply detach_observers|]. split; [done|]. split; [|split].
  - rewrite detach_observers. intros Hin.
    apply list_elem_of_filter in Hin as [Hne _]. done.
  - intros Hnotin. destruct a as [l news].
    assert (observers (detach o (mkNewsAgency l news)) = l) as Hl.
    { rewrite detach_observers. simpl in *.
      induction l as [|x l IH]; [done|].
      apply not_elem_of_cons in Hnotin as [Hne Hnotin].
      rewrite filter_cons, decide_True by congruence. f_equal. by apply IH. }
    unfold detach in *. destruct (std_remove o _) as [moved new_end].
    simpl in *. by rewrite Hl.
  - rewrite !detach_observers. simpl. rewrite <- !app_assoc. simpl.
    rewrite filter_app, !filter_cons, filter_nil.
    destruct (decide (o ≠ o)) as [Hne|_]; [by destruct Hne|].
    by rewrite app_nil_r.
Qed.

(** C2 as the specification words it fails: with the same observer
    attached twice, one [detach] leaves no occurrence of it, where
    removing the first match would leave one. *)
Lemma detach_first_match_counterexample :
  let a := attach 7 (attach 7 newsAgency) in
  observers a = [7; 7]
  ∧ detach_first_match 7 (observers a) = [7]
  ∧ observers (detach 7 a) = []
  ∧ observers (detach 7 a) ≠ detach_first_match 7 (observers a)
  ∧ 7 ∉ observers (detach 7 a).
Proof.
  simpl. repeat split; [done | apply not_elem_of_nil].
Qed.

End ObserverFacts.

Module DelegationFacts.

Example Strategy_main_output :
  Strategy.main = [ "Calculating the shortest route." +:+ nl;
                    "Calculating the fastest route." +:+ nl;
                    "Calculating the scenic route." +:+ nl ].
Proof. reflexivity. Qed.

Example Command_main_output :
  Command.main = [ "Light is ON" +:+ nl; "Light is OFF" +:+ nl;
                   "Light is OFF" +:+ nl; "Light is ON" +:+ nl ].
Proof. reflexivity. Qed.

Example Delegate_main_output :
  Delegate.main = [ "Printing to console: Hello, Console!" +:+ nl;
                    "Saving to file: Hello, File!" +:+ nl ].
Proof. reflexivity. Qed.

(** With a strategy, a command or a delegate in place the call is
    forwarded to it, and the object stays as it is. *)
Lemma navigate_forwards g s :
  Strategy.strategy g = Some s →
  Strategy.navigate g = (g, Strategy.calculateRoute s).
Proof. intros Hs. unfold Strategy.navigate. by rewrite Hs. Qed.

Lemma press_forwards r c :
  Command.command r = Some c →
  Command.pressButton r = (r, Command.execute c)
  ∧ Command.pressUndo r = (r, Command.undo c).
Proof.
  intros Hc. unfold Command.pressButton, Command.pressUndo. by rewrite Hc.
Qed.

Lemma print_forwards p s text :
  Delegate.strategy p = Some s →
  Delegate.print text p = (p, Delegate.PrintStrategy_print s text).
Proof. intros Hs. unfold Delegate.print. by rewrite Hs. Qed.

(** C3, as the code has it.  With nothing assigned, [navigate] prints
    "No strategy set." and [print] prints "No print strategy set!", each
    on a line, and [pressButton] and [pressUndo] print nothing; every one
    of the four calls returns and leaves its object as it was. *)
Theorem nothing_assigned (g : Strategy.GPSNavigator) (r : Command.RemoteControl)
    (p : Delegate.Printer) (text : string) :
  Strategy.strategy g = None →
  Command.command r = None →
  Delegate.strategy p = None →
  Strategy.navigate g = (g, ["No strategy set." +:+ nl])
  ∧ Delegate.print text p = (p, ["No print strategy set!" +:+ nl])
  ∧ Command.pressButton r = (r, [])
  ∧ Command.pressUndo r = (r, []).
Proof.
  intros Hg Hr Hp.
  unfold Strategy.navigate, Delegate.print, Command.pressButton, Command.pressUndo.
  by rewrite Hg, Hr, Hp.
Qed.

Lemma nothing_assigned_witness :
  Strategy.navigate Strategy.gpsNavigator
    = (Strategy.gpsNavigator, ["No strategy set." +:+ nl])
  ∧ Delegate.print "Hello" Delegate.printer
    = (Delegate.printer, ["No print strategy set!" +:+ nl])
  ∧ Command.pressButton Command.remoteControl = (Command.remoteControl, [])
  ∧ Command.pressUndo Command.remoteControl = (Command.remoteControl, []).
Proof.
  apply (nothing_assigned Strategy.gpsNavigator Command.remoteControl
           Delegate.printer "Hello"); reflexivity.
Defined.

(** C3 as the specification words it fails for the Command demo: a
    remote control without a command prints no notice, neither on
    [pressButton] nor on [pressUndo]. *)
Lemma press_without_command_counterexample :
  Command.command Command.remoteControl = None
  ∧ ¬ (∃ notice, notice ∈ (Command.pressButton Command.remoteControl).2)
  ∧ ¬ (∃ notice, notice ∈ (Command.pressUndo Command.remoteControl).2).
Proof.
  split; [done|]. split; intros [notice Hin]; simpl in Hin;
    by apply elem_of_nil in Hin.
Qed.

End DelegationFacts.

Module FactoryFacts.
Import Factory.

Example Factory_main_output :
  main = Returns ["Driving a Sedan." +:+ nl; "Driving an SUV." +:+ nl].
Proof. reflexivity. Qed.

Lemma createCar_known :
  createCar "Sedan" = Returns Sedan
  ∧ createCar "SUV" = Returns SUV
  ∧ createCar "SportsCar" = Returns SportsCar.
Proof. by repeat split. Qed.

(** An exception that is thrown reaches the caller, whatever the caller
    meant to do with the value. *)
Lemma and_then_throws {A B} (c : outcome A) (k : A → outcome B) e :
  c = Throws e → and_then c k = Throws e.
Proof. by intros ->. Qed.

(** C5. [createCar "Sedan"] returns a car whose [drive] prints
    "Driving a Sedan."; for a [type] that is none of "Sedan", "SUV" and
    "SportsCar", [createCar] returns no car and throws
    [invalid_argument], which its caller does not get past. *)
Theorem createCar_spec (type : string) :
  type ≠ "Sedan" → type ≠ "SUV" → type ≠ "SportsCar" →
  (∃ car, createCar "Sedan" = Returns car
          ∧ drive car = ["Driving a Sedan." +:+ nl])
  ∧ createCar type = Throws (invalid_argument "Unknown car type")
  ∧ (∀ car, createCar type ≠ Returns car)
  ∧ (∀ B (k : Car → outcome B),
       and_then (createCar type) k = Throws (invalid_argument "Unknown car type")).
Proof.
  intros H1 H2 H3.
  assert (createCar type = Throws (invalid_argument "Unknown car type")) as Hthrow.
  { unfold createCar.
    apply String.eqb_neq in H1, H2, H3. by rewrite H1, H2, H3. }
  split; [by exists Sedan|]. split; [done|]. split.
  - intros car. by rewrite Hthrow.
  - intros B k. by apply and_then_throws.
Qed.

Lemma createCar_spec_witness :
  (∃ car, createCar "Sedan" = Returns car
          ∧ drive car = ["Driving a Sedan." +:+ nl])
  ∧ createCar "Truck" = Throws (invalid_argument "Unknown car type")
  ∧ (∀ car, createCar "Truck" ≠ Returns car)
  ∧ (∀ B (k : Car → outcome B),
       and_then (createCar "Truck") k = Throws (invalid_argument "Unknown car type")).
Proof.
  apply (createCar_spec "Truck"); discriminate.
Defined.

End FactoryFacts.

Module ProxyFacts.
Import Proxy.

Example Proxy_main_output :
  main = [ "Image is not yet loaded." +:+ nl;
           "Loading image from disk: test_image.jpg" +:+ nl;
           "Displaying image: test_image.jpg" +:+ nl;
           "Displaying image: test_image.jpg" +:+ nl ].
Proof. reflexivity. Qed.

Lemma display_first file :
  display (ProxyImage_new file)
  = (mkProxyImage file (Some (mkRealImage file)),
     [ "Loading image from disk: " +:+ file +:+ nl;
       "Displaying image: " +:+ file +:+ nl ]).
Proof. reflexivity. Qed.

Lemma display_cached this real :
  realImage this = Some real →
  display this = (this, RealImage_display real).
Proof. intros Hreal. unfold display. rewrite Hreal. simpl. by rewrite Hreal. Qed.

Lemma displays_cached n this real :
  realImage this = Some real →
  displays n this = (this, replicate n (RealImage_display real)).
Proof.
  intros Hreal. induction n as [|n IH]; [done|].
  simpl. rewrite (display_cached this real Hreal), IH. done.
Qed.

(** C6. On a proxy for [file], the first [display] prints the
    "Loading image from disk" line and then the "Displaying image" line
    and leaves the real image in the proxy; each of the [n] calls after
    it prints the "Displaying image" line alone and keeps that same real
    image. *)
Theorem display_loads_once (file : string) (n : nat) :
  let '(proxy1, out1) := display (ProxyImage_new file) in
  let '(proxy2, outs) := displays n proxy1 in
  out1 = [ "Loading image from disk: " +:+ file +:+ nl;
           "Displaying image: " +:+ file +:+ nl ]
  ∧ outs = replicate n ["Displaying image: " +:+ file +:+ nl]
  ∧ realImage (ProxyImage_new file) = None
  ∧ realImage proxy1 = Some (mkRealImage file)
  ∧ proxy2 = proxy1.
Proof.
  rewrite display_first.
  rewrite (displays_cached n _ (mkRealImage file)) by done.
  done.
Qed.

End ProxyFacts.

Module SingletonFacts.
Import Singleton.

Example Singleton_main_output :
  main = [ created; "This is the Singleton instance." +:+ nl;
           "Both instances are the same." +:+ nl ].
Proof. reflexivity. Qed.

Lemma getInstance_first p :
  instance p = None →
  getInstance p
  = (Some (allocated p),
     mkProcess (Some (allocated p)) (S (allocated p)) (cout p ++ [created])).
Proof. intros Hnull. unfold getInstance. by rewrite Hnull. Qed.

Lemma getInstance_again p a :
  instance p = Some a → getInstance p = (Some a, p).
Proof. intros Hset. unfold getInstance. rewrite Hset. simpl. by rewrite Hset. Qed.

Lemma calls_again n p a :
  instance p = Some a → calls n p = (replicate n (Some a), p).
Proof.
  intros Hset. induction n as [|n IH]; [done|].
  cbn [calls]. by rewrite (getInstance_again p a Hset), IH.
Qed.

(** C7. In a run of [n + 1] calls of [getInstance] one after the other,
    the first call returns the address of a new object, every later call
    returns that same address, and the line
    "Singleton instance created." is printed once in the whole run. *)
Theorem getInstance_same_instance (n : nat) :
  let '(first, p1) := getInstance start in
  let '(later, p2) := calls n p1 in
  calls (S n) start = (first :: later, p2)
  ∧ (∃ a, first = Some a)
  ∧ later = replicate n first
  ∧ printed created (cout p1) = 1
  ∧ printed created (cout p2) = 1
  ∧ allocated p2 = 1.
Proof.
  rewrite (getInstance_first start) by done.
  rewrite (calls_again n _ 0) by done.
  split.
  - cbn [calls]. rewrite (getInstance_first start) by done.
    by rewrite (calls_again n _ 0).
  - split; [by exists 0|]. done.
Qed.

End SingletonFacts.

Module PrototypeFacts.
Import Prototype.

Example Prototype_main_output :
  main = Some [ "Drawing a Circle with radius 10" +:+ nl;
                "Drawing a Rectangle with width 5 and height 8" +:+ nl ].
Proof. reflexivity. Qed.

Lemma Shape_copy_same s : Shape_copy s = s.
Proof. by destruct s. Qed.

Lemma Shape_clone_spec s h : Shape_clone s h = (length h, h ++ [s]).
Proof. destruct s; reflexivity. Qed.

(** C10. For a circle or a rectangle at address [p], [clone] returns the
    address [q] of a new object: [q] differs from [p], it was not in use
    before, the object at [q] has the fields of the one at [p], which is
    left as it was like every other object, and [draw] prints the same
    for both. *)
Theorem clone_is_a_distinct_copy (h : Heap) (p : ShapePtr) (s : Shape) :
  h !! p = Some s →
  ∃ q h',
    clone p h = Some (q, h')
    ∧ q ≠ p
    ∧ h !! q = None
    ∧ h' !! q = Some s
    ∧ h' !! p = Some s
    ∧ (∀ r, r ≠ q → h' !! r = h !! r)
    ∧ draw q h' = draw p h'
    ∧ draw q h' = Some (Shape_draw s).
Proof.
  intros Hp. exists (length h), (h ++ [s]).
  pose proof (lookup_lt_Some _ _ _ Hp) as Hlt.
  assert ((h ++ [s]) !! length h = Some s) as Hq.
  { rewrite lookup_app_r by lia. by rewrite Nat.sub_diag. }
  assert ((h ++ [s]) !! p = Some s) as Hp'.
  { by rewrite lookup_app_l. }
  unfold clone, draw, ShapePtr in *. rewrite Hp, Shape_clone_spec, Hq, Hp'.
  repeat split; try done.
  - lia.
  - by apply lookup_ge_None_2.
  - intros r Hr. destruct (decide (r < length h)) as [Hlt'|Hge].
    + by rewrite lookup_app_l.
    + rewrite !lookup_ge_None_2; [done | lia |].
      rewrite length_app. simpl. lia.
Qed.

Lemma clone_is_a_distinct_copy_witness :
  ∃ q h',
    clone 1 [Circle 10; Rectangle 5 8] = Some (q, h')
    ∧ q ≠ 1
    ∧ [Circle 10; Rectangle 5 8] !! q = None
    ∧ h' !! q = Some (Rectangle 5 8)
    ∧ h' !! 1 = Some (Rectangle 5 8)
    ∧ (∀ r, r ≠ q → h' !! r = [Circle 10; Rectangle 5 8] !! r)
    ∧ draw q h' = draw 1 h'
    ∧ draw q h' = Some (Shape_draw (Rectangle 5 8)).
Proof.
  apply (clone_is_a_distinct_copy [Circle 10; Rectangle 5 8] 1 (Rectangle 5 8)).
  reflexivity.
Defined.

End PrototypeFacts.

Module DecoratorFacts.
Import Decorator.

(** The output of the demo is the one its source announces: the last
    cost is written as 3.4. *)
Example Decorator_main_output :
  main = Some [ "Plain Coffee costs $2" +:+ nl;
                "Plain Coffee, Milk costs $2.5" +:+ nl;
                "Plain Coffee, Milk, Sugar costs $2.7" +:+ nl;
                "Plain Coffee, Milk, Sugar, Caramel costs $3.4" +:+ nl ].
Proof. vm_compute. reflexivity. Qed.

(** The conversion on some other values. *)
#[local] Set Warnings "-inexact-float".
Example show_double_examples :
  show_double 0.5%float = Some "0.5"
  ∧ show_double 100%float = Some "100"
  ∧ show_double 123456.5%float = Some "123456"
  ∧ show_double 123455.5%float = Some "123456"
  ∧ show_double 0.000125%float = Some "0.000125"
  ∧ show_double 0.0001%float = Some "0.0001"
  ∧ show_double 9.9999996%float = Some "10"
  ∧ show_double (-1.25)%float = Some "-1.25"
  ∧ show_double 999999.5%float = None
  ∧ show_double 0.00001%float = None.
Proof. vm_compute. repeat split. Qed.
#[local] Set Warnings "inexact-float".

(** The costs after each step of [main], as the [double] values they
    are. *)
Example getCost_steps :
  Prim2SF (getCost PlainCoffee) = S754_finite false 4503599627370496 (-51)
  ∧ Prim2SF (getCost (MilkDecorator PlainCoffee))
    = S754_finite false 5629499534213120 (-51)
  ∧ Prim2SF (getCost (SugarDecorator (MilkDecorator PlainCoffee)))
    = S754_finite false 6079859496950170 (-51)
  ∧ Prim2SF (getCost myCoffee) = S754_finite false 7656119366529844 (-51).
Proof. repeat split; vm_compute; reflexivity. Qed.

(** The sums of [getCost] are the sums of the IEEE 754 specification. *)
Example getCost_by_the_standard :
  Prim2SF (getCost myCoffee)
  = SFadd prec emax
      (SFadd prec emax
         (SFadd prec emax (Prim2SF 2.0%float) (Prim2SF 0.5%float))
         (SFdiv prec emax (Prim2SF 2%float) (Prim2SF 10%float)))
      (SFdiv prec emax (Prim2SF 7%float) (Prim2SF 10%float)).
Proof. vm_compute. reflexivity. Qed.

(** C8, as the code has it.  The coffee wrapped in milk, sugar and
    caramel, in that order, has the description
    "Plain Coffee, Milk, Sugar, Caramel", and its [getCost] returns the
    [double] 7656119366529844 * 2^-51, about 3.4000000000000004.  That is
    the [double] next above the [double] the literal 3.4 denotes; it lies
    above 3.4 by less than 10^-15, and the console shows it as 3.4. *)
Theorem myCoffee_cost_and_description :
  getDescription myCoffee = "Plain Coffee, Milk, Sugar, Caramel"
  ∧ Prim2SF (getCost myCoffee) = S754_finite false 7656119366529844 (-51)
  ∧ Prim2SF three_point_four = S754_finite false 7656119366529843 (-51)
  ∧ getCost myCoffee = next_up three_point_four
  ∧ show_double (getCost myCoffee) = Some "3.4"
  ∧ ∃ q, value (getCost myCoffee) = Some q
         ∧ (34 # 10 < q)%Q
         ∧ (q < (34 # 10) + (1 # 10 ^ 15))%Q.
Proof.
  split; [reflexivity|].
  split; [vm_compute; reflexivity|].
  split; [vm_compute; reflexivity|].
  split; [vm_compute; reflexivity|].
  split; [vm_compute; reflexivity|].
  eexists. split; [vm_compute; reflexivity|].
  split; vm_compute; reflexivity.
Qed.

(** C8 as the specification words it fails: the cost [getCost] returns
    is not the [double] 3.4; the comparison [==] of the two is false and
    the cost is the greater one. *)
Lemma getCost_is_not_3_4_counterexample :
  getCost myCoffee ≠ three_point_four
  ∧ PrimFloat.eqb (getCost myCoffee) three_point_four = false
  ∧ PrimFloat.ltb three_point_four (getCost myCoffee) = true.
Proof.
  split; [|split; vm_compute; reflexivity].
  intros Heq. apply (f_equal Prim2SF) in Heq.
  vm_compute in Heq. discriminate Heq.
Qed.

End DecoratorFacts.

Module CompositeFacts.
Import Composite.

Example Composite_main_output :
  main = Some
         [ "Manager: General Manager" +:+ nl;
           "Manager: Team Lead" +:+ nl;
           "Developer: Alice, Position: Frontend Developer" +:+ nl;
           "Developer: Bob, Position: Backend Developer" +:+ nl;
           "Designer: Charlie, Position: UX Designer" +:+ nl ].
Proof. reflexivity. Qed.

(** Induction on employees, with the property at hand for every member
    of a manager's team. *)
Lemma Employee_tree_ind (P : Employee → Prop) :
  (∀ name position, P (Developer name position)) →
  (∀ name position, P (Designer name position)) →
  (∀ name team, Forall P team → P (Manager name team)) →
  ∀ e, P e.
Proof.
  intros Hdev Hdes Hman. fix IH 1. intros [name position|name position|name team].
  - apply Hdev.
  - apply Hdes.
  - apply Hman. induction team as [|c team IHteam]; constructor.
    + apply IH.
    + apply IHteam.
Qed.

Lemma showDetails_Manager name team :
  showDetails (Manager name team) = headline (Manager name team) :: showTeam team.
Proof.
  simpl. f_equal. unfold showTeam.
  induction team as [|c team IH]; [done|]. simpl. by rewrite IH.
Qed.

Lemma positions_Manager name team :
  positions (Manager name team) = [] :: teamPositions 0 team.
Proof. reflexivity. Qed.

Lemma size_Manager name team : size (Manager name team) = S (teamSize team).
Proof. reflexivity. Qed.

Lemma showTeam_cons c team : showTeam (c :: team) = showDetails c ++ showTeam team.
Proof. reflexivity. Qed.

Lemma showTeam_app team1 team2 :
  showTeam (team1 ++ team2) = showTeam team1 ++ showTeam team2.
Proof. unfold showTeam. by rewrite fmap_app, concat_app. Qed.

(** *** From the objects to the tree *)

Lemma represents_Manager st name team p :
  represents st (Manager name team) p
  ↔ ∃ ptrs, st !! p = Some (ManagerObject name ptrs)
            ∧ Forall2 (represents st) team ptrs.
Proof.
  simpl. split; intros (ptrs & Hp & Hteam); exists ptrs; (split; [done|]).
  - clear Hp. revert ptrs Hteam.
    induction team as [|c team IH]; intros [|q ptrs] Hteam; try done.
    destruct Hteam as [Hc Hteam]. constructor; [done|]. by apply IH.
  - clear Hp. induction Hteam as [|c q team ptrs Hc _ IH]; done.
Qed.

Lemma height_Manager name team : height (Manager name team) = S (teamHeight team).
Proof. reflexivity. Qed.

(** When the pointers form a tree, the call returns, with the lines of
    the tree, as soon as the nesting allowed reaches the height. *)
Lemma showDetails_at_represents st e p fuel :
  represents st e p → height e ≤ fuel →
  showDetails_at fuel st p = Some (showDetails e).
Proof.
  revert p fuel.
  induction e as [name position|name position|name team IH] using Employee_tree_ind;
    intros p fuel Hp Hfuel.
  - destruct fuel as [|fuel]; [simpl in Hfuel; lia|]. simpl in *. by rewrite Hp.
  - destruct fuel as [|fuel]; [simpl in Hfuel; lia|]. simpl in *. by rewrite Hp.
  - apply represents_Manager in Hp as (ptrs & Hp & Hteam).
    rewrite height_Manager in Hfuel.
    destruct fuel as [|fuel]; [lia|]. apply Nat.succ_le_mono in Hfuel.
    rewrite showDetails_Manager. cbn [showDetails_at]. rewrite Hp.
    assert (mapM (showDetails_at fuel st) ptrs = Some (showDetails <$> team))
      as ->; [|done].
    apply mapM_Some_2. clear Hp.
    induction Hteam as [|c q team ptrs Hc _ IHteam]; [constructor|].
    apply Forall_cons in IH as [IHc IH]. simpl in Hfuel.
    constructor.
    + apply IHc; [done|lia].
    + apply IHteam; [done|lia].
Qed.

(** A manager who is a member of his own team: the call does not
    return, whatever nesting is allowed. *)
Example showDetails_at_cycle fuel :
  showDetails_at fuel [ManagerObject "Ouroboros" [0]] 0 = None.
Proof.
  induction fuel as [|fuel IH]; [done|]. simpl. by rewrite IH.
Qed.

(** *** Every node prints one line *)

Lemma length_showDetails e : length (showDetails e) = size e.
Proof.
  induction e as [name position|name position|name team IH] using Employee_tree_ind;
    [done | done |].
  rewrite showDetails_Manager, size_Manager. simpl. f_equal.
  induction IH as [|c team Hc _ IHteam]; [done|].
  rewrite showTeam_cons, length_app. simpl. by rewrite Hc, IHteam.
Qed.

Lemma length_positions e : length (positions e) = size e.
Proof.
  induction e as [name position|name position|name team IH] using Employee_tree_ind;
    [done | done |].
  rewrite positions_Manager, size_Manager. simpl. f_equal.
  generalize 0 as i.
  induction IH as [|c team Hc _ IHteam]; intros i; [done|].
  cbn [teamPositions teamSize]. rewrite length_app, length_fmap, Hc. by rewrite IHteam.
Qed.

(** *** The lines are the nodes' own lines, position by position *)

Lemma subtree_child name team i c p :
  team !! i = Some c → subtree (Manager name team) (i :: p) = subtree c p.
Proof. intros Hc. simpl. by rewrite Hc. Qed.

Lemma showTeam_lines name pre team :
  Forall (λ c, Some <$> showDetails c = line_at c <$> positions c) team →
  Some <$> showTeam team
  = line_at (Manager name (pre ++ team)) <$> teamPositions (length pre) team.
Proof.
  intros Hteam. revert pre.
  induction Hteam as [|c team Hc _ IH]; intros pre; [done|].
  rewrite showTeam_cons. simpl. rewrite !fmap_app. f_equal.
  - rewrite Hc, <- list_fmap_compose. apply list_fmap_ext.
    intros k p _. simpl. unfold line_at.
    rewrite (subtree_child _ _ _ c); [done|].
    by rewrite list_lookup_middle.
  - specialize (IH (pre ++ [c])).
    rewrite <- app_assoc, length_app in IH. simpl in IH.
    by rewrite Nat.add_1_r in IH.
Qed.

Lemma showDetails_lines e :
  Some <$> showDetails e = line_at e <$> positions e.
Proof.
  induction e as [name position|name position|name team IH] using Employee_tree_ind;
    [done | done |].
  rewrite showDetails_Manager, positions_Manager. simpl. f_equal.
  by apply (showTeam_lines name []).
Qed.

(** *** The positions listed are the nodes of the tree *)

Lemma elem_of_teamPositions q i team :
  q ∈ teamPositions i team
  ↔ ∃ k c p, team !! k = Some c ∧ q = (i + k) :: p ∧ p ∈ positions c.
Proof.
  revert i. induction team as [|c team IH]; intros i.
  - simpl. split; [by intros ?%elem_of_nil|].
    intros (k & c & p & Hk & _). by rewrite lookup_nil in Hk.
  - cbn [teamPositions]. rewrite elem_of_app, list_elem_of_fmap, IH. split.
    + intros [(p & -> & Hp)|(k & c' & p & Hk & -> & Hp)].
      * exists 0, c, p. by rewrite Nat.add_0_r.
      * exists (S k), c', p. split; [done|]. split; [f_equal; lia|done].
    + intros (k & c' & p & Hk & -> & Hp). destruct k as [|k].
      * left. exists p. simpl in Hk. injection Hk as <-.
        by rewrite Nat.add_0_r.
      * right. exists k, c', p. split; [done|]. split; [f_equal; lia|done].
Qed.

Lemma elem_of_positions e p : p ∈ positions e ↔ is_Some (subtree e p).
Proof.
  revert p.
  induction e as [name position|name position|name team IH] using Employee_tree_ind;
    intros p.
  - simpl. rewrite list_elem_of_singleton.
    destruct p; simpl; split; try done; by intros [? ?].
  - simpl. rewrite list_elem_of_singleton.
    destruct p; simpl; split; try done; by intros [? ?].
  - rewrite positions_Manager, elem_of_cons, elem_of_teamPositions.
    rewrite Forall_lookup in IH. split.
    + intros [->|(k & c & p' & Hk & -> & Hp')]; [by eexists|].
      simpl. rewrite Hk. by apply (IH k c Hk).
    + destruct p as [|k p']; [by left|]. simpl.
      destruct (team !! k) as [c|] eqn:Hk; [|by intros [? ?]].
      intros Hsome. right. exists k, c, p'. split; [done|]. split; [done|].
      by apply (IH k c Hk).
Qed.

(** *** The order of the positions *)

Lemma before_nil_l q : before [] q ↔ q ≠ [].
Proof.
  split.
  - intros [(i & s & ->)|(r & i & j & s & t & Hp & _)]; [done|].
    by destruct r.
  - destruct q as [|i s]; [done|]. intros _. left. by exists i, s.
Qed.

Lemma before_nil_r p : ¬ before p [].
Proof.
  intros [(i & s & Hq)|(r & i & j & s & t & _ & Hq & _)].
  - by destruct p.
  - by destruct r.
Qed.

Lemma before_cons i j p q :
  before (i :: p) (j :: q) ↔ i < j ∨ (i = j ∧ before p q).
Proof.
  split.
  - intros [(k & s & Hq)|(r & a & b & s & t & Hp & Hq & Hlt)].
    + simpl in Hq. injection Hq as -> ->. right. split; [done|].
      left. by exists k, s.
    + destruct r as [|x r]; simpl in *.
      * injection Hp as -> ->. injection Hq as -> ->. by left.
      * injection Hp as -> ->. injection Hq as -> ->. right. split; [done|].
        right. by exists r, a, b, s, t.
  - intros [Hlt|[-> [(k & s & ->)|(r & a & b & s & t & -> & -> & Hlt)]]].
    + right. by exists [], i, j, p, q.
    + left. by exists k, s.
    + right. by exists (j :: r), a, b, s, t.
Qed.

Lemma before_asym p q : before p q → ¬ before q p.
Proof.
  revert q. induction p as [|i p IH]; intros q Hpq Hqp.
  - by apply before_nil_r in Hqp.
  - destruct q as [|j q]; [by apply before_nil_r in Hpq|].
    apply before_cons in Hpq, Hqp.
    destruct Hpq as [?|[-> Hpq]], Hqp as [?|[? Hqp]]; try lia.
    by apply (IH q).
Qed.

Lemma before_irrefl p : ¬ before p p.
Proof. intros Hp. by apply (before_asym p p). Qed.

Lemma teamPositions_sorted i team :
  Forall (λ c, StronglySorted before (positions c)) team →
  StronglySorted before (teamPositions i team).
Proof.
  intros Hteam. revert i.
  induction Hteam as [|c team Hc _ IH]; intros i; [constructor|].
  cbn [teamPositions]. apply StronglySorted_app_2.
  - intros x1 x2 (p & -> & _)%list_elem_of_fmap Hx2.
    apply elem_of_teamPositions in Hx2 as (k & c' & p' & _ & -> & _).
    apply before_cons. left. lia.
  - apply (StronglySorted_fmap _ before); [|done].
    intros p q Hpq. apply before_cons. by right.
  - apply IH.
Qed.

Lemma positions_sorted e : StronglySorted before (positions e).
Proof.
  induction e as [name position|name position|name team IH] using Employee_tree_ind.
  - repeat constructor.
  - repeat constructor.
  - rewrite positions_Manager. constructor.
    + by apply teamPositions_sorted.
    + apply Forall_forall. intros q Hq. apply before_nil_l.
      apply elem_of_teamPositions in Hq as (k & c & p & _ & -> & _). done.
Qed.

Lemma StronglySorted_lookup {A} (R : relation A) l i j x y :
  StronglySorted R l → l !! i = Some x → l !! j = Some y → i < j → R x y.
Proof.
  intros Hl. revert i j. induction Hl as [|z l Hl IH Hz]; intros i j Hi Hj Hlt.
  - by rewrite lookup_nil in Hi.
  - destruct j as [|j]; [lia|]. simpl in Hj. destruct i as [|i].
    + simpl in Hi. injection Hi as <-. rewrite Forall_forall in Hz.
      apply Hz. by apply list_elem_of_lookup_2 in Hj.
    + simpl in Hi. apply (IH i j); [done | done | lia].
Qed.

(** A position comes earlier in the list exactly when it is [before]. *)
Lemma positions_order e i j p q :
  positions e !! i = Some p → positions e !! j = Some q →
  (i < j ↔ before p q).
Proof.
  intros Hi Hj. pose proof (positions_sorted e) as Hsorted. split.
  - intros Hlt. by apply (StronglySorted_lookup before (positions e) i j).
  - intros Hpq. destruct (Nat.lt_trichotomy i j) as [Hlt|[->|Hgt]]; [done|..].
    + rewrite Hi in Hj. injection Hj as <-. by apply before_irrefl in Hpq.
    + apply (before_asym p q) in Hpq. destruct Hpq.
      by apply (StronglySorted_lookup before (positions e) j i).
Qed.

Lemma positions_NoDup e : NoDup (positions e).
Proof.
  apply NoDup_alt. intros i j p Hi Hj.
  destruct (Nat.lt_trichotomy i j) as [Hlt|[->|Hgt]]; [|done|].
  - apply (positions_order e i j p p Hi Hj) in Hlt. by apply before_irrefl in Hlt.
  - apply (positions_order e j i p p Hj Hi) in Hgt. by apply before_irrefl in Hgt.
Qed.

(** An employee added to a team is the last of the team. *)
Lemma addEmployee_last c name team :
  addEmployee c (Manager name team) = Manager name (team ++ [c])
  ∧ subtree (addEmployee c (Manager name team)) [length team] = Some c
  ∧ showDetails (addEmployee c (Manager name team))
    = showDetails (Manager name team) ++ showDetails c.
Proof.
  split; [done|]. split.
  - simpl. by rewrite list_lookup_middle.
  - cbn [addEmployee]. rewrite !showDetails_Manager, showTeam_app.
    unfold showTeam at 2. simpl. by rewrite app_nil_r.
Qed.

(** C4. [showDetails] on an employee tree prints one line for each of
    its nodes, as many lines as there are nodes: the lines are the own
    lines of the nodes at [positions], in that order, where [positions]
    lists every node of the tree once, and lists a node earlier than
    another exactly when it is an ancestor of the other or lies in the
    subtree of an earlier child of a common ancestor, the children of a
    manager counted in the order [addEmployee] added them.  These are
    the lines the call on the objects prints when their pointers form
    the tree. *)
Theorem showDetails_preorder (e : Employee) :
  Some <$> showDetails e = line_at e <$> positions e
  ∧ length (showDetails e) = size e
  ∧ NoDup (positions e)
  ∧ (∀ p, p ∈ positions e ↔ is_Some (subtree e p))
  ∧ (∀ i j p q,
       positions e !! i = Some p → positions e !! j = Some q →
       (i < j ↔ before p q))
  ∧ (∀ c name team,
       e = Manager name team →
       subtree (addEmployee c e) [length team] = Some c
       ∧ showDetails (addEmployee c e) = showDetails e ++ showDetails c)
  ∧ (∀ st p fuel,
       represents st e p → height e ≤ fuel →
       showDetails_at fuel st p = Some (showDetails e)).
Proof.
  split; [apply showDetails_lines|].
  split; [apply length_showDetails|].
  split; [apply positions_NoDup|].
  split; [apply elem_of_positions|].
  split; [apply positions_order|].
  split; [intros c name team ->; apply addEmployee_last|].
  intros st p fuel. apply showDetails_at_represents.
Qed.

End CompositeFacts.

Module ThreadSafeSingletonFacts.
Import ThreadSafeSingleton.

Example ThreadSafeSingleton_main_output :
  main = [ created; "This is the thread-safe Singleton instance." +:+ nl ].
Proof. reflexivity. Qed.

(** Two threads: the second finds the mutex taken and waits, and finds
    the instance made when its turn comes. *)
Example two_threads :
  run [0; 1; 0; 1; 0; 0; 0; 1; 0; 1; 1; 1; 1] (init 2)
  = mkConfig (mkShared (Some 0) None 1 [created])
      [Returned (Some 0); Returned (Some 0)].
Proof. reflexivity. Qed.

Lemma invariant_init n : invariant (init n).
Proof.
  split; simpl.
  - intros i at_ [-> _]%lookup_replicate. done.
  - done.
  - done.
  - intros i at_ [-> _]%lookup_replicate. done.
  - by left.
Qed.

(** What a step of thread [i] is made of. *)
Lemma step_thread_Some i c c' :
  step_thread i c = Some c' →
  ∃ at_ at_', threads c !! i = Some at_
    ∧ step_pc i (shared c) at_ = Some (shared c', at_')
    ∧ threads c' = <[i := at_']> (threads c).
Proof.
  unfold step_thread. intros Hstep.
  destruct (threads c !! i) as [at_|]; [|done].
  destruct (step_pc i (shared c) at_) as [[s at_']|] eqn:Hpc; [|done].
  injection Hstep as <-. by exists at_, at_'.
Qed.

Lemma lookup_after_step (ts : list pc) i j at_' at_j :
  <[i := at_']> ts !! j = Some at_j →
  (j = i ∧ at_j = at_') ∨ (j ≠ i ∧ ts !! j = Some at_j).
Proof.
  intros Hj. apply list_lookup_insert_Some in Hj.
  destruct Hj as [(-> & -> & _)|[Hne Hj]]; [by left|by right].
Qed.

(** A thread other than the owner of the mutex is outside. *)
Lemma other_thread_outside c i j at_ :
  invariant c → mtx (shared c) = Some i → j ≠ i →
  threads c !! j = Some at_ →
  at_ = AtLock ∨ ∃ r, at_ = Returned r.
Proof.
  intros Hinv Hmtx Hne Hj.
  pose proof (inv_owner c Hinv j at_ Hj) as Howner.
  destruct at_; eauto;
    (assert (mtx (shared c) = Some j) as Hmtx' by (by apply Howner);
     rewrite Hmtx in Hmtx'; congruence).
Qed.

Lemma owner_lives_after_step c i at_' j :
  invariant c → mtx (shared c) = Some j →
  is_Some (<[i := at_']> (threads c) !! j).
Proof.
  intros Hinv Hj. apply lookup_lt_is_Some. rewrite length_insert.
  apply lookup_lt_is_Some. by apply (inv_owner_lives c Hinv).
Qed.

(** The steps inside the critical section leave the mutex alone, so the
    other threads stay outside, where the new object does not matter. *)
Lemma invariant_step_inside c i at_ at_' s' :
  invariant c →
  threads c !! i = Some at_ →
  in_critical_section at_ = true →
  in_critical_section at_' = true →
  mtx s' = mtx (shared c) →
  cout s' = replicate (allocated s') created →
  consistent s' at_' →
  (instance (shared c) = Some 0 → instance s' = Some 0) →
  match instance s' with
  | Some a => a = 0 ∧ allocated s' = 1
  | None => allocated s' = 0 ∨ at_' = AtAssign 0
  end →
  invariant (mkConfig s' (<[i := at_']> (threads c))).
Proof.
  intros Hinv Hi Hin Hin' Hmtx' Hcout' Hcons' Hkeep Hinst'.
  assert (mtx (shared c) = Some i) as Hmtx by (by apply (inv_owner c Hinv i at_)).
  pose proof (lookup_lt_Some _ _ _ Hi) as Hlt.
  split; simpl.
  - intros j at_j [[-> ->]|[Hne Hj]]%lookup_after_step.
    + rewrite Hmtx', Hmtx. done.
    + rewrite Hmtx'. by apply (inv_owner c Hinv).
  - intros j Hj. rewrite Hmtx' in Hj. by apply owner_lives_after_step.
  - done.
  - intros j at_j [[-> ->]|[Hne Hj]]%lookup_after_step; [done|].
    pose proof (inv_consistent c Hinv j at_j Hj) as Hold.
    destruct (other_thread_outside c i j at_j Hinv Hmtx Hne Hj) as [->|[r ->]];
      [done|].
    simpl in *. destruct Hold as [-> Hold]. split; [done|]. by apply Hkeep.
  - destruct (instance s'); [done|]. destruct Hinst' as [? | ->]; [by left|].
    right. exists i. by rewrite list_lookup_insert_eq.
Qed.

Lemma invariant_step i c c' :
  invariant c → step_thread i c = Some c' → invariant c'.
Proof.
  intros Hinv (at_ & at_' & Hi & Hpc & Hts)%step_thread_Some.
  destruct c as [s ts], c' as [s' ts']. simpl in *. subst ts'.
  pose proof (inv_owner _ Hinv i at_ Hi) as Howner. simpl in Howner.
  pose proof (inv_consistent _ Hinv i at_ Hi) as Hcons. simpl in Hcons.
  pose proof (inv_cout _ Hinv) as Hcout. simpl in Hcout.
  pose proof (inv_instance _ Hinv) as Hinst. simpl in Hinst.
  pose proof (lookup_lt_Some _ _ _ Hi) as Hlt.
  destruct at_; simpl in Hpc.
  - (* the guard takes the mutex *)
    destruct (mtx s) as [owner|] eqn:Hmtx; [done|]. injection Hpc as <- <-.
    split; simpl.
    + intros j at_j [[-> ->]|[Hne Hj]]%lookup_after_step; [done|].
      pose proof (inv_owner _ Hinv j at_j Hj) as Hj'. simpl in Hj'.
      rewrite Hmtx in Hj'. split; [by intros ?%Hj'|congruence].
    + intros j [= <-]. rewrite list_lookup_insert_eq by done. by eexists.
    + done.
    + intros j at_j [[-> ->]|[Hne Hj]]%lookup_after_step; [done|].
      apply (inv_consistent _ Hinv j at_j Hj).
    + destruct (instance s); [done|]. destruct Hinst as [?|[k Hk]]; [by left|].
      right. exists k. rewrite list_lookup_insert_ne; [done|congruence].
  - (* the test *)
    destruct (instance s) as [a|] eqn:Hinstance; injection Hpc as <- <-.
    + destruct Hinst as [-> Halloc].
      apply (invariant_step_inside (mkConfig s ts) i AtTest); simpl; try done.
      by rewrite Hinstance.
    + assert (allocated s = 0) as Halloc.
      { destruct Hinst as [?|[k Hk]]; [done|].
        assert (mtx s = Some k) as Hk' by (by apply (inv_owner _ Hinv k _ Hk)).
        assert (mtx s = Some i) as Hi' by (by apply Howner).
        rewrite Hk' in Hi'. injection Hi' as ->. congruence. }
      apply (invariant_step_inside (mkConfig s ts) i AtTest); simpl; try done.
      rewrite Hinstance. by left.
  - (* the construction *)
    destruct Hcons as [Hinstance Halloc]. injection Hpc as <- <-.
    apply (invariant_step_inside (mkConfig s ts) i AtNew); simpl; try done.
    + rewrite Hcout, Halloc. done.
    + by rewrite Halloc.
    + rewrite Hinstance, Halloc. by right.
  - (* the assignment *)
    destruct Hcons as (-> & Hinstance & Halloc). injection Hpc as <- <-.
    by apply (invariant_step_inside (mkConfig s ts) i (AtAssign 0)).
  - (* the return value is read *)
    injection Hpc as <- <-.
    apply (invariant_step_inside (mkConfig s ts) i AtReturn); simpl; try done.
    by rewrite Hcons in *.
  - (* the guard releases the mutex *)
    destruct Hcons as [-> Hinstance]. injection Hpc as <- <-.
    assert (mtx s = Some i) as Hmtx by (by apply Howner).
    split; simpl.
    + intros j at_j [[-> ->]|[Hne Hj]]%lookup_after_step; [done|].
      destruct (other_thread_outside _ i j at_j Hinv Hmtx Hne Hj) as [->|[r ->]];
        done.
    + done.
    + done.
    + intros j at_j [[-> ->]|[Hne Hj]]%lookup_after_step; [done|].
      apply (inv_consistent _ Hinv j at_j Hj).
    + by rewrite Hinstance in *.
  - done.
Qed.

Lemma run_app schedule1 schedule2 c :
  run (schedule1 ++ schedule2) c = run schedule2 (run schedule1 c).
Proof.
  revert c. induction schedule1 as [|i schedule1 IH]; intros c; [done|].
  simpl. apply IH.
Qed.

Lemma invariant_run schedule c : invariant c → invariant (run schedule c).
Proof.
  revert c. induction schedule as [|i schedule IH]; intros c Hinv; [done|].
  simpl. apply IH. destruct (step_thread i c) as [c'|] eqn:Hstep; [|done].
  by apply (invariant_step i c).
Qed.

Lemma length_step i c c' :
  step_thread i c = Some c' → length (threads c') = length (threads c).
Proof.
  intros (at_ & at_' & _ & _ & ->)%step_thread_Some. apply length_insert.
Qed.

Lemma length_run schedule c : length (threads (run schedule c)) = length (threads c).
Proof.
  revert c. induction schedule as [|i schedule IH]; intros c; [done|].
  simpl. rewrite IH. destruct (step_thread i c) as [c'|] eqn:Hstep; [|done].
  by apply (length_step i).
Qed.

(** *** What the invariant gives *)

Lemma critical_section_exclusive c i j at_i at_j :
  invariant c →
  threads c !! i = Some at_i → threads c !! j = Some at_j →
  in_critical_section at_i = true → in_critical_section at_j = true →
  i = j.
Proof.
  intros Hinv Hi Hj Hin_i Hin_j.
  apply (inv_owner c Hinv i at_i Hi) in Hin_i.
  apply (inv_owner c Hinv j at_j Hj) in Hin_j. congruence.
Qed.

Lemma allocated_at_most_once c : invariant c → allocated (shared c) ≤ 1.
Proof.
  intros Hinv. pose proof (inv_instance c Hinv) as Hinst.
  destruct (instance (shared c)) as [a|].
  - destruct Hinst as [_ ->]. done.
  - destruct Hinst as [->|[k Hk]]; [lia|].
    apply (inv_consistent c Hinv) in Hk as (_ & _ & ->). done.
Qed.

Lemma printed_replicate line k : printed line (replicate k line) = k.
Proof.
  unfold printed. induction k as [|k IH]; [done|].
  change (replicate (S k) line) with (line :: replicate k line).
  rewrite filter_cons, decide_True by done. cbn [length]. by rewrite IH.
Qed.

Lemma printed_created c :
  invariant c → printed created (cout (shared c)) = allocated (shared c).
Proof. intros Hinv. rewrite (inv_cout c Hinv). apply printed_replicate. Qed.

Lemma returned_the_instance c i r :
  invariant c → threads c !! i = Some (Returned r) →
  r = Some 0 ∧ instance (shared c) = Some 0 ∧ allocated (shared c) = 1.
Proof.
  intros Hinv Hi. pose proof (inv_consistent c Hinv i _ Hi) as [-> Hinstance].
  pose proof (inv_instance c Hinv) as Hinst. rewrite Hinstance in Hinst.
  by destruct Hinst as [_ ->].
Qed.

(** *** No deadlock, and every call can be brought to its end *)

Lemma all_returned_or_not (ts : list pc) :
  (∀ i at_, ts !! i = Some at_ → ∃ r, at_ = Returned r)
  ∨ (∃ i at_, ts !! i = Some at_ ∧ ∀ r, at_ ≠ Returned r).
Proof.
  induction ts as [|at_ ts [IH|(i & at_i & Hi & Hne)]].
  - left. intros i at_. by rewrite lookup_nil.
  - destruct at_ as [| | | | | |r];
      try (right; exists 0; eexists; split; [reflexivity|done]).
    left. intros [|i] at_i Hi; simpl in Hi.
    + injection Hi as <-. by exists r.
    + by apply (IH i).
  - right. by exists (S i), at_i.
Qed.

Lemma progress c :
  invariant c → finished c ∨ ∃ i c', step_thread i c = Some c'.
Proof.
  intros Hinv. destruct (mtx (shared c)) as [i|] eqn:Hmtx.
  - right. exists i.
    destruct (inv_owner_lives c Hinv i Hmtx) as [at_ Hi].
    assert (in_critical_section at_ = true) as Hin
      by (by apply (inv_owner c Hinv i at_ Hi)).
    unfold step_thread. rewrite Hi.
    destruct at_; try done; simpl; try by eexists.
    destruct (instance (shared c)); by eexists.
  - destruct (all_returned_or_not (threads c)) as [Hall|(i & at_ & Hi & Hne)];
      [by left|].
    right. exists i. unfold step_thread. rewrite Hi.
    pose proof (inv_owner c Hinv i at_ Hi) as Howner. rewrite Hmtx in Howner.
    destruct at_ as [| | | | | |r];
      try (by assert (None = Some i) by (by apply Howner)).
    + simpl. rewrite Hmtx. by eexists.
    + by destruct (Hne r).
Qed.

Lemma work_insert (ts : list pc) i at_ at_' :
  ts !! i = Some at_ →
  work (<[i := at_']> ts) + steps_left at_ = work ts + steps_left at_'.
Proof.
  unfold work. revert i. induction ts as [|x ts IH]; intros i Hi.
  - by rewrite lookup_nil in Hi.
  - destruct i as [|i]; csimpl in *.
    + injection Hi as ->. lia.
    + specialize (IH i Hi). lia.
Qed.

Lemma step_pc_steps_left i s at_ s' at_' :
  step_pc i s at_ = Some (s', at_') → steps_left at_' < steps_left at_.
Proof.
  destruct at_; simpl; intros Hstep; repeat case_match;
    simplify_eq; simpl; lia.
Qed.

Lemma step_thread_work i c c' :
  step_thread i c = Some c' → work (threads c') < work (threads c).
Proof.
  intros (at_ & at_' & Hi & Hpc & ->)%step_thread_Some.
  pose proof (work_insert (threads c) i at_ at_' Hi).
  pose proof (step_pc_steps_left _ _ _ _ _ Hpc). lia.
Qed.

Lemma completes c : invariant c → ∃ schedule, finished (run schedule c).
Proof.
  remember (work (threads c)) as w eqn:Hw. revert c Hw.
  induction w as [w IH] using lt_wf_ind. intros c -> Hinv.
  destruct (progress c Hinv) as [Hfinished|(i & c' & Hstep)].
  - by exists [].
  - destruct (IH (work (threads c')) (step_thread_work i c c' Hstep) c' eq_refl)
      as [schedule Hschedule].
    { by apply (invariant_step i c). }
    exists (i :: schedule). simpl. by rewrite Hstep.
Qed.

(** C9. Whatever the number of threads that call [getInstance] and
    however their steps interleave: no two threads are between taking
    and releasing the mutex at the same time; at most one object is ever
    constructed, and its line is printed as many times; every call that
    has returned has returned the address of that one object, which is
    the value of [instance]; as long as some call is not over, some
    thread can take a step, and the calls can all be brought to their
    end; when they are, one object has been constructed and its line
    printed once. *)
Theorem getInstance_constructs_once (n : nat) (schedule : list nat) :
  let c := run schedule (init n) in
  length (threads c) = n
  ∧ (∀ i j at_i at_j,
       threads c !! i = Some at_i → threads c !! j = Some at_j →
       in_critical_section at_i = true → in_critical_section at_j = true →
       i = j)
  ∧ allocated (shared c) ≤ 1
  ∧ printed created (cout (shared c)) = allocated (shared c)
  ∧ (∀ i j r r',
       threads c !! i = Some (Returned r) →
       threads c !! j = Some (Returned r') →
       r = r' ∧ is_Some r ∧ instance (shared c) = r ∧ allocated (shared c) = 1)
  ∧ (finished c ∨ ∃ i c', step_thread i c = Some c')
  ∧ (∃ more, finished (run (schedule ++ more) (init n)))
  ∧ (0 < n → finished c →
     allocated (shared c) = 1 ∧ printed created (cout (shared c)) = 1).
Proof.
  intros c.
  assert (invariant c) as Hinv by apply invariant_run, invariant_init.
  split. { unfold c. rewrite length_run. apply length_replicate. }
  split. { intros i j at_i at_j. by apply critical_section_exclusive. }
  split. { by apply allocated_at_most_once. }
  split. { by apply printed_created. }
  split.
  { intros i j r r' Hi Hj.
    destruct (returned_the_instance c i r Hinv Hi) as (-> & Hinstance & Halloc).
    destruct (returned_the_instance c j r' Hinv Hj) as (-> & _ & _).
    by repeat split. }
  split. { by apply progress. }
  split.
  { destruct (completes c Hinv) as [more Hmore].
    exists more. by rewrite run_app. }
  intros Hn Hfinished.
  assert (is_Some (threads c !! 0)) as [at_ H0].
  { apply lookup_lt_is_Some. unfold c. rewrite length_run.
    simpl. by rewrite length_replicate. }
  destruct (Hfinished 0 at_ H0) as [r ->].
  destruct (returned_the_instance c 0 r Hinv H0) as (_ & _ & Halloc).
  by rewrite printed_created, Halloc.
Qed.

End ThreadSafeSingletonFacts.

(** * Further properties of the code *)

Module ObserverMore.
Import Observer ObserverFacts.

Lemma NewsAgency_eq a b :
  observers a = observers b → latestNews a = latestNews b → a = b.
Proof. destruct a, b. simpl. by intros -> ->. Qed.

Lemma attach_observers o a : observers (attach o a) = observers a ++ [o].
Proof. reflexivity. Qed.

Lemma count_first_components (o : ObserverPtr) (v : string) (l : list ObserverPtr) :
  length (filter (λ d : ObserverPtr * string, d.1 = o) (map (λ x, (x, v)) l))
  = length (filter (λ x, x = o) l).
Proof.
  induction l as [|x l IH]; [done|]. simpl.
  rewrite !filter_cons. simpl.
  destruct (decide (x = o)) as [->|Hne]; simpl; by rewrite IH.
Qed.

(** X1. Whatever observers were attached, also the same one several
    times: one [setNews] makes as many deliveries as there were
    attachments, all with the new news, and an observer gets as many of
    them as the number of times it was attached. *)
Theorem deliveries_match_attachments (os : list ObserverPtr) (o : ObserverPtr)
    (v : string) :
  let log := (setNews (H := recording) v (attach_all os newsAgency) []).2 in
  length log = length os
  ∧ Forall (λ d, d.2 = v) log
  ∧ length (filter (λ d, d.1 = o) log) = length (filter (λ x, x = o) os).
Proof.
  intros log. unfold log. rewrite setNews_recording, attach_all_observers.
  simpl. split; [by rewrite length_map|]. split.
  - apply Forall_forall. intros d Hd.
    apply list_elem_of_fmap in Hd as (x & -> & _). done.
  - apply count_first_components.
Qed.

(** X2. Detaching an observer that was just attached, and was not
    attached before, gives back the agency as it was. *)
Theorem detach_attach_round_trip (o : ObserverPtr) (a : NewsAgency) :
  o ∉ observers a → detach o (attach o a) = a.
Proof.
  intros Hnotin. apply NewsAgency_eq; [|done].
  rewrite detach_observers. simpl. rewrite filter_app, filter_cons, filter_nil.
  destruct (decide (o ≠ o)) as [Hne|_]; [by destruct Hne|].
  rewrite app_nil_r.
  induction (observers a) as [|x l IH]; [done|].
  apply not_elem_of_cons in Hnotin as [Hne Hnotin].
  rewrite filter_cons, decide_True by congruence. f_equal. by apply IH.
Qed.

Lemma detach_attach_round_trip_witness :
  detach 3 (attach 3 (attach 2 (attach 1 newsAgency)))
  = attach 2 (attach 1 newsAgency).
Proof.
  apply (detach_attach_round_trip 3 (attach 2 (attach 1 newsAgency))).
  compute_done.
Defined.

Lemma detach_attach_other (o o' : ObserverPtr) (a : NewsAgency) :
  o ≠ o' → detach o (attach o' a) = attach o' (detach o a).
Proof.
  intros Hne. apply NewsAgency_eq; [|done].
  rewrite detach_observers, !attach_observers, detach_observers.
  rewrite filter_app, filter_cons, filter_nil.
  by rewrite decide_True by congruence.
Qed.

(** X3. Detaching twice is detaching once; two detachments can be made
    in either order; and attaching an observer just before it is
    detached makes no difference. *)
Theorem detach_laws (o o' : ObserverPtr) (a : NewsAgency) :
  detach o (detach o a) = detach o a
  ∧ detach o (detach o' a) = detach o' (detach o a)
  ∧ detach o (attach o a) = detach o a.
Proof.
  split; [|split].
  - apply NewsAgency_eq; [|done]. rewrite !detach_observers.
    rewrite list_filter_filter. apply list_filter_iff. tauto.
  - apply NewsAgency_eq; [|done]. rewrite !detach_observers.
    rewrite !list_filter_filter. apply list_filter_iff. tauto.
  - apply NewsAgency_eq; [|done]. rewrite !detach_observers. simpl.
    rewrite filter_app, filter_cons, filter_nil.
    destruct (decide (o ≠ o)) as [Hne|_]; [by destruct Hne|].
    by rewrite app_nil_r.
Qed.

(** X4. When every attached pointer points to a subscriber, [setNews]
    writes one line for each attachment, in the order of attachment:
    the subscriber's name, " received update: " and the new news; the
    registry and the subscribers stay as they were. *)
Theorem setNews_subscribers (names : gmap ObserverPtr string) (a : NewsAgency)
    (v : string) (out : stdout) :
  Forall (λ o, is_Some (names !! o)) (observers a) →
  setNews (H := Subscriber_update) v a (mkConsole names out)
  = (mkNewsAgency (observers a) v,
     mkConsole names
       (out ++ ((λ o, default "" (names !! o) +:+ " received update: " +:+ v +:+ nl)
                  <$> observers a))).
Proof.
  intros Hnames. unfold setNews. by rewrite notify_subscribers.
Qed.

Lemma setNews_subscribers_witness :
  setNews (H := Subscriber_update) "news"
    (attach 5 (attach 4 newsAgency))
    (mkConsole (<[4 := "Ann"]> (<[5 := "Ben"]> ∅)) [])
  = (mkNewsAgency [4; 5] "news",
     mkConsole (<[4 := "Ann"]> (<[5 := "Ben"]> ∅))
       ([] ++ ((λ o, default "" ((<[4 := "Ann"]> (<[5 := "Ben"]> ∅) : gmap nat string) !! o)
                      +:+ " received update: " +:+ "news" +:+ nl)
                 <$> [4; 5]))).
Proof.
  apply (setNews_subscribers (<[4 := "Ann"]> (<[5 := "Ben"]> ∅))
           (attach 5 (attach 4 newsAgency)) "news" []).
  repeat constructor; by eexists.
Defined.

End ObserverMore.

Module BuilderFacts.
Import Builder.

Example Builder_main_output :
  main = Some
    ([ "Pizza with Thin crust, Tomato sauce, and toppings: ";
       "Bell Peppers "; "Mushrooms "; "Olives "; nl;
       "Pizza with Thick crust, Barbecue sauce, and toppings: ";
       "Pepperoni "; "Sausage "; "Bacon "; nl ],
     [None; None]).
Proof. reflexivity. Qed.

Lemma write_Some p f h pz :
  h !! p = Some (Some pz) → write p f h = Some (<[p := Some (f pz)]> h).
Proof. intros Hp. unfold write. by rewrite Hp. Qed.

Lemma perform_Some s b h pz :
  h !! pizza b = Some (Some pz) →
  perform s b h = Some (<[pizza b := Some (after_steps (class b) [s] pz)]> h).
Proof.
  intros Hp. destruct s; simpl; unfold setCrust, setSauce, addToppings;
    by rewrite (write_Some _ _ _ pz Hp).
Qed.

Lemma after_steps_cons c s ss pz :
  after_steps c ss (after_steps c [s] pz) = after_steps c (s :: ss) pz.
Proof.
  unfold after_steps. simpl.
  destruct s; f_equal; repeat case_bool_decide; try done;
    exfalso; rewrite ?elem_of_cons, ?elem_of_nil in *; intuition congruence.
Qed.

Lemma performs_Some ss b h pz :
  h !! pizza b = Some (Some pz) →
  performs ss b h = Some (<[pizza b := Some (after_steps (class b) ss pz)]> h).
Proof.
  revert h pz. induction ss as [|s ss IH]; intros h pz Hp.
  - simpl. f_equal. symmetry. apply list_insert_id.
    rewrite Hp. by destruct pz.
  - pose proof (lookup_lt_Some _ _ _ Hp) as Hlt.
    cbn [performs]. rewrite (perform_Some s b h pz Hp). simpl.
    rewrite (IH _ (after_steps (class b) [s] pz)).
    + by rewrite list_insert_insert_eq, after_steps_cons.
    + by rewrite list_lookup_insert_eq.
Qed.

Lemma after_steps_all c ss pz :
  (∀ s, s ∈ ss) →
  after_steps c ss pz = after_steps c [SetCrust; SetSauce; AddToppings] pz.
Proof.
  intros Hall. unfold after_steps.
  by rewrite !bool_decide_eq_true_2 by (try apply Hall; repeat constructor).
Qed.

Lemma steps_in_any_order_aux (b : PizzaBuilder) (h : Heap) (pz : Pizza)
    (ss : list Step) :
  h !! pizza b = Some (Some pz) →
  performs ss b h = Some (<[pizza b := Some (after_steps (class b) ss pz)]> h)
  ∧ constructPizza b h = performs [SetCrust; SetSauce; AddToppings] b h
  ∧ ((∀ s, s ∈ ss) → performs ss b h = constructPizza b h)
  ∧ (h' ← constructPizza b h; constructPizza b h') = constructPizza b h.
Proof.
  intros Hp. pose proof (lookup_lt_Some _ _ _ Hp) as Hlt.
  assert (constructPizza b h = performs [SetCrust; SetSauce; AddToppings] b h)
    as Hconstruct.
  { unfold constructPizza. simpl.
    destruct (setCrust b h) as [h1|]; [|done]. simpl.
    destruct (setSauce b h1) as [h2|]; [|done]. simpl.
    by destruct (addToppings b h2). }
  split; [by apply performs_Some|]. split; [done|]. split.
  - intros Hall. rewrite Hconstruct, !(performs_Some _ b h pz Hp).
    by rewrite (after_steps_all _ ss).
  - rewrite Hconstruct, (performs_Some _ b h pz Hp). simpl.
    assert (∀ h', constructPizza b h'
                  = performs [SetCrust; SetSauce; AddToppings] b h') as ->.
    { intros h'. unfold constructPizza. simpl.
      destruct (setCrust b h') as [h1|]; [|done]. simpl.
      destruct (setSauce b h1) as [h2|]; [|done]. simpl.
      by destruct (addToppings b h2). }
    rewrite (performs_Some _ b _ (after_steps (class b)
               [SetCrust; SetSauce; AddToppings] pz)).
    + rewrite list_insert_insert_eq. by destruct (class b).
    + by rewrite list_lookup_insert_eq.
Qed.

(** X5. On a builder whose pizza is alive, a sequence of steps leaves the
    pizza that has, for each kind of step that occurs in the sequence,
    the builder's value for that part, and the old value for the other
    parts.  So the steps can come in any order and any number of times:
    every sequence with all three steps makes the pizza
    [constructPizza] makes, and constructing twice is constructing
    once. *)
Theorem steps_in_any_order (b : PizzaBuilder) (h : Heap) (pz : Pizza)
    (ss : list Step) :
  h !! pizza b = Some (Some pz) →
  performs ss b h = Some (<[pizza b := Some (after_steps (class b) ss pz)]> h)
  ∧ constructPizza b h = performs [SetCrust; SetSauce; AddToppings] b h
  ∧ ((∀ s, s ∈ ss) → performs ss b h = constructPizza b h)
  ∧ (h' ← constructPizza b h; constructPizza b h') = constructPizza b h.
Proof. apply steps_in_any_order_aux. Qed.

Lemma steps_in_any_order_witness :
  let b := mkPizzaBuilder MeatLoversPizzaBuilder 0 in
  let h : Heap := [Some Pizza_default] in
  let ss := [AddToppings; SetCrust; AddToppings; SetSauce] in
  performs ss b h
  = Some (<[pizza b := Some (after_steps (class b) ss Pizza_default)]> h)
  ∧ constructPizza b h = performs [SetCrust; SetSauce; AddToppings] b h
  ∧ ((∀ s, s ∈ ss) → performs ss b h = constructPizza b h)
  ∧ (h' ← constructPizza b h; constructPizza b h') = constructPizza b h.
Proof.
  apply (steps_in_any_order (mkPizzaBuilder MeatLoversPizzaBuilder 0)
           [Some Pizza_default] Pizza_default
           [AddToppings; SetCrust; AddToppings; SetSauce]).
  reflexivity.
Defined.

(** X6. A new builder holds a new pizza, with nothing set.  Its
    [getPizza] gives the same pointer before and after the director's
    work, so a pointer taken before sees the finished pizza; the
    director's work changes this one pizza and nothing else on the
    heap, makes no object and deletes none. *)
Theorem construct_own_pizza_only (c : BuilderClass) (h : Heap) :
  let '(b, h1) := PizzaBuilder_new c h in
  h !! getPizza b = None
  ∧ h1 !! getPizza b = Some (Some Pizza_default)
  ∧ (∀ q, q ≠ getPizza b → h1 !! q = h !! q)
  ∧ ∃ h2, constructPizza b h1 = Some h2
          ∧ h2 !! getPizza b
            = Some (Some (after_steps c [SetCrust; SetSauce; AddToppings]
                            Pizza_default))
          ∧ (∀ q, q ≠ getPizza b → h2 !! q = h1 !! q)
          ∧ length h2 = length h1.
Proof.
  unfold PizzaBuilder_new, new_Pizza, getPizza. simpl.
  assert ((h ++ [Some Pizza_default]) !! length h = Some (Some Pizza_default))
    as Hnew.
  { rewrite lookup_app_r by lia. by rewrite Nat.sub_diag. }
  split; [by apply lookup_ge_None_2|]. split; [done|]. split.
  { intros q Hq. destruct (decide (q < length h)) as [Hlt|Hge].
    - by rewrite lookup_app_l.
    - rewrite !lookup_ge_None_2; [done | lia |]. rewrite length_app. simpl. lia. }
  destruct (steps_in_any_order_aux (mkPizzaBuilder c (length h))
              (h ++ [Some Pizza_default]) Pizza_default
              [SetCrust; SetSauce; AddToppings] Hnew) as (Hperforms & -> & _).
  rewrite Hperforms. eexists. split; [done|]. simpl.
  pose proof (lookup_lt_Some _ _ _ Hnew) as Hlt.
  split; [by rewrite list_lookup_insert_eq|]. split.
  - intros q Hq. by rewrite list_lookup_insert_ne.
  - by rewrite length_insert.
Qed.

End BuilderFacts.

Module AdapterFacts.
Import Adapter.

Example Adapter_main_output :
  main = Some [ "Playing MP3 file: song.mp3" +:+ nl;
                "Playing MP4 file: movie.mp4" +:+ nl;
                "Playing VLC file: video.vlc" +:+ nl;
                "Unsupported format: avi" +:+ nl ].
Proof. reflexivity. Qed.

Lemma adapted_eqb audioType :
  adapted audioType
  ↔ (String.eqb audioType "vlc" || String.eqb audioType "mp4")%bool = true.
Proof.
  unfold adapted. rewrite orb_true_iff, !String.eqb_eq. done.
Qed.

(** A new adapter for an adapted format: the adapter, then its player. *)
Lemma MediaAdapter_new_adapted audioType h :
  adapted audioType →
  MediaAdapter_new audioType h
  = (length h,
     h ++ [Some (MediaAdapterObject (Some (S (length h))));
           Some AdvancedMediaPlayerObject]).
Proof.
  intros Hadapted. unfold MediaAdapter_new, new.
  assert (<[length h := Some (MediaAdapterObject (Some (S (length h))))]>
            ((h ++ [Some (MediaAdapterObject None)]) ++ [Some AdvancedMediaPlayerObject])
          = h ++ [Some (MediaAdapterObject (Some (S (length h))));
                  Some AdvancedMediaPlayerObject]) as Hheap.
  { rewrite <- app_assoc. simpl.
    rewrite insert_app_r_alt by lia. by rewrite Nat.sub_diag. }
  rewrite length_app. simpl. rewrite Nat.add_1_r.
  destruct Hadapted as [-> | ->]; simpl; by rewrite Hheap.
Qed.

(** A new adapter for another format: the adapter alone, with no
    player. *)
Lemma MediaAdapter_new_other audioType h :
  ¬ adapted audioType →
  MediaAdapter_new audioType h = (length h, h ++ [Some (MediaAdapterObject None)]).
Proof.
  intros Hother. unfold MediaAdapter_new, new.
  destruct (String.eqb_spec audioType "vlc") as [->|_];
    [destruct Hother; by left|].
  destruct (String.eqb_spec audioType "mp4") as [->|_];
    [destruct Hother; by right|].
  f_equal. rewrite insert_app_r_alt by lia. by rewrite Nat.sub_diag.
Qed.

Lemma live_app_freed h a :
  live (h ++ [None; None]) a ↔ live h a.
Proof.
  unfold live. destruct (decide (a < length h)) as [Hlt|Hge].
  - by rewrite lookup_app_l.
  - rewrite lookup_app_r by lia. rewrite (lookup_ge_None_2 h) by lia.
    destruct (a - length h) as [|[|n]]; simpl; split; by intros [? ?].
Qed.

Lemma play_adapted_aux (audioType fileName : string) (this : AudioPlayer) (h : Heap) :
  adapted audioType →
  play audioType fileName this h
  = Some (mkAudioPlayer (Some (length h)), h ++ [None; None],
          [(if String.eqb audioType "vlc" then "Playing VLC file: "
            else "Playing MP4 file: ") +:+ fileName +:+ nl])
  ∧ (∀ a, live (h ++ [None; None]) a ↔ live h a)
  ∧ ¬ live (h ++ [None; None]) (length h).
Proof.
  intros Hadapted. split; [|split].
  - unfold play.
    assert (String.eqb audioType "mp3" = false) as ->.
    { by destruct Hadapted as [-> | ->]. }
    pose proof Hadapted as Hor. apply adapted_eqb in Hor. rewrite Hor.
    rewrite (MediaAdapter_new_adapted audioType h Hadapted).
    unfold MediaAdapter_play, MediaAdapter_delete, on_player, delete_player.
    rewrite !lookup_app_r by lia. rewrite Nat.sub_diag. simpl.
    rewrite !lookup_app_r by lia.
    replace (S (length h) - length h) with 1 by lia. simpl.
    rewrite !insert_app_r_alt by (rewrite ?length_app, ?length_insert; simpl; lia).
    replace (S (length h) - length h) with 1 by lia.
    rewrite Nat.sub_diag. simpl.
    destruct Hadapted as [-> | ->]; done.
  - apply live_app_freed.
  - rewrite live_app_freed. intros [o Ho].
    by rewrite lookup_ge_None_2 in Ho.
Qed.

(** X7. A request for "vlc" or "mp4" is passed on through an adapter
    made for the call: the player's line for the file is the one line
    written, and when the call returns the adapter and its player have
    both been deleted, so that the objects alive are those alive
    before; the member [adapter] is left pointing to the adapter that
    is gone. *)
Theorem play_adapted (audioType fileName : string) (this : AudioPlayer) (h : Heap) :
  adapted audioType →
  play audioType fileName this h
  = Some (mkAudioPlayer (Some (length h)), h ++ [None; None],
          [(if String.eqb audioType "vlc" then "Playing VLC file: "
            else "Playing MP4 file: ") +:+ fileName +:+ nl])
  ∧ (∀ a, live (h ++ [None; None]) a ↔ live h a)
  ∧ ¬ live (h ++ [None; None]) (length h).
Proof. apply play_adapted_aux. Qed.

Lemma play_adapted_witness :
  play "mp4" "movie.mp4" audioPlayer [None]
  = Some (mkAudioPlayer (Some (length ([None] : Heap))), [None] ++ [None; None],
          [(if String.eqb "mp4" "vlc" then "Playing VLC file: "
            else "Playing MP4 file: ") +:+ "movie.mp4" +:+ nl])
  ∧ (∀ a, live ([None] ++ [None; None]) a ↔ live [None] a)
  ∧ ¬ live ([None] ++ [None; None]) (length ([None] : Heap)).
Proof.
  apply (play_adapted "mp4" "movie.mp4" audioPlayer [None]). by right.
Defined.

Lemma play_unsupported_aux (audioType fileName : string) (this : AudioPlayer)
    (h : Heap) :
  audioType ≠ "mp3" → audioType ≠ "vlc" → audioType ≠ "mp4" →
  play audioType fileName this h
  = Some (this, h, ["Unsupported format: " +:+ audioType +:+ nl]).
Proof.
  intros H1 H2 H3. unfold play.
  apply String.eqb_neq in H1, H2, H3. by rewrite H1, H2, H3.
Qed.

(** X8. A request for a format that is none of "mp3", "vlc" and "mp4"
    is answered with the line "Unsupported format: " and the format
    asked for; no adapter is made, and the player and the heap stay as
    they were. *)
Theorem play_unsupported (audioType fileName : string) (this : AudioPlayer)
    (h : Heap) :
  audioType ≠ "mp3" → audioType ≠ "vlc" → audioType ≠ "mp4" →
  play audioType fileName this h
  = Some (this, h, ["Unsupported format: " +:+ audioType +:+ nl]).
Proof. apply play_unsupported_aux. Qed.

Lemma play_unsupported_witness :
  play "avi" "clip.avi" audioPlayer []
  = Some (audioPlayer, [], ["Unsupported format: " +:+ "avi" +:+ nl]).
Proof.
  apply (play_unsupported "avi" "clip.avi" audioPlayer []); discriminate.
Defined.

Lemma play_answer audioType fileName this h :
  ∃ this' h',
    play audioType fileName this h = Some (this', h', [answer audioType fileName])
    ∧ (∀ a, live h' a ↔ live h a)
    ∧ h `prefix_of` h'.
Proof.
  unfold answer.
  destruct (String.eqb_spec audioType "mp3") as [->|Hmp3].
  { exists this, h. by repeat split. }
  destruct (String.eqb_spec audioType "vlc") as [->|Hvlc].
  { destruct (play_adapted_aux "vlc" fileName this h) as (-> & Hlive & _); [by left|].
    eexists _, _. split; [done|]. split; [done|]. by apply prefix_app_r. }
  destruct (String.eqb_spec audioType "mp4") as [->|Hmp4].
  { destruct (play_adapted_aux "mp4" fileName this h) as (-> & Hlive & _); [by right|].
    eexists _, _. split; [done|]. split; [done|]. by apply prefix_app_r. }
  exists this, h. rewrite play_unsupported_aux by done. by repeat split.
Qed.

(** X9. Every sequence of requests can be played, whatever the formats
    and the file names: no call uses a pointer to no live object, each
    request is answered with one line, and at the end the objects
    alive are those alive at the start, at their old addresses. *)
Theorem plays_safe (requests : list (string * string)) (this : AudioPlayer)
    (h : Heap) :
  ∃ this' h',
    plays requests this h
    = Some (this', h', (λ request, [answer request.1 request.2]) <$> requests)
    ∧ (∀ a, live h' a ↔ live h a)
    ∧ h `prefix_of` h'.
Proof.
  revert this h. induction requests as [|[audioType fileName] requests IH];
    intros this h.
  - exists this, h. by repeat split.
  - destruct (play_answer audioType fileName this h)
      as (this1 & h1 & Hplay & Hlive1 & Hprefix1).
    destruct (IH this1 h1) as (this2 & h2 & Hplays & Hlive2 & Hprefix2).
    exists this2, h2. cbn [plays]. rewrite Hplay. simpl. rewrite Hplays. simpl.
    split; [done|]. split.
    + intros a. by rewrite Hlive2, Hlive1.
    + by etrans.
Qed.

(** X10. An adapter taken alone can be asked for a format it was not
    made for.  The call is well defined exactly when the format asked
    for is not adapted or the adapter was made for an adapted format:
    an adapter made for "vlc" plays "mp4" as well, while an adapter made
    for an unsupported format has no player, and is asked for "vlc" or
    "mp4" only by a call through the null pointer.  A format that is
    not adapted is always answered with the "Unsupported format"
    line. *)
Theorem MediaAdapter_play_defined (made_for audioType fileName : string)
    (h : Heap) :
  let '(a, h1) := MediaAdapter_new made_for h in
  (is_Some (MediaAdapter_play a audioType fileName h1)
   ↔ (adapted audioType → adapted made_for))
  ∧ (¬ adapted audioType →
     MediaAdapter_play a audioType fileName h1
     = Some ["Unsupported format: " +:+ audioType +:+ nl])
  ∧ (adapted audioType → adapted made_for →
     MediaAdapter_play a audioType fileName h1
     = Some [(if String.eqb audioType "vlc" then "Playing VLC file: "
              else "Playing MP4 file: ") +:+ fileName +:+ nl]).
Proof.
  destruct (decide (adapted made_for)) as [Hmade|Hmade].
  - rewrite (MediaAdapter_new_adapted made_for h Hmade).
    assert (MediaAdapter_play (length h) audioType fileName
              (h ++ [Some (MediaAdapterObject (Some (S (length h))));
                     Some AdvancedMediaPlayerObject])
            = if String.eqb audioType "vlc" then Some (playVlc fileName)
              else if String.eqb audioType "mp4" then Some (playMp4 fileName)
              else Some ["Unsupported format: " +:+ audioType +:+ nl]) as ->.
    { unfold MediaAdapter_play, on_player.
      rewrite !lookup_app_r by lia. rewrite Nat.sub_diag. simpl.
      rewrite !lookup_app_r by lia.
      replace (S (length h) - length h) with 1 by lia. done. }
    destruct (String.eqb_spec audioType "vlc") as [->|Hvlc];
      [repeat split; (done || by eexists || (intros Hno; destruct Hno; by left))|].
    destruct (String.eqb_spec audioType "mp4") as [->|Hmp4];
      [repeat split; (done || by eexists || (intros Hno; destruct Hno; by right))|].
    repeat split; try done; try by eexists.
    intros [?|?]; done.
  - rewrite (MediaAdapter_new_other made_for h Hmade).
    assert (MediaAdapter_play (length h) audioType fileName
              (h ++ [Some (MediaAdapterObject None)])
            = if String.eqb audioType "vlc" then None
              else if String.eqb audioType "mp4" then None
              else Some ["Unsupported format: " +:+ audioType +:+ nl]) as ->.
    { unfold MediaAdapter_play, on_player.
      rewrite !lookup_app_r by lia. rewrite Nat.sub_diag. done. }
    destruct (String.eqb_spec audioType "vlc") as [->|Hvlc].
    { split; [|split]; [|intros Hno; destruct Hno; by left|done].
      split; [by intros [? ?]|]. intros Himp. destruct Hmade. apply Himp. by left. }
    destruct (String.eqb_spec audioType "mp4") as [->|Hmp4].
    { split; [|split]; [|intros Hno; destruct Hno; by right|done].
      split; [by intros [? ?]|]. intros Himp. destruct Hmade. apply Himp. by right. }
    split; [|split]; [|done|done].
    split; [|by eexists]. intros _ [?|?]; done.
Qed.

End AdapterFacts.

Module CompositeMore.
Import Composite CompositeFacts.

Lemma showDetails_at_child_None fuel st p q :
  child st p q → showDetails_at fuel st q = None →
  showDetails_at (S fuel) st p = None.
Proof.
  intros (name & team & Hp & Hq) Hnone. cbn [showDetails_at]. rewrite Hp.
  assert (mapM (showDetails_at fuel st) team = None) as ->; [|done].
  apply mapM_None_2, Exists_exists. by exists q.
Qed.

Lemma cycle_never_returns_aux (st : Store) (p q : EmployeePtr)
    (fuel : nat) :
  tc (child st) p p → rtc (child st) q p →
  showDetails_at fuel st q = None.
Proof.
  intros Hcycle. revert q. induction fuel as [|fuel IH]; intros q Hq; [done|].
  assert (∃ q', child st q q' ∧ rtc (child st) q' p) as (q' & Hchild & Hq').
  { apply rtc_inv in Hq as [->|(q' & Hchild & Hq')]; [|by exists q'].
    inversion Hcycle as [? ? Hchild|? q' ? Hchild Hq']; subst.
    - by exists p.
    - exists q'. split; [done|]. by apply tc_rtc. }
  apply (showDetails_at_child_None fuel st q q' Hchild). by apply IH.
Qed.

(** X11. No cycle is looked for: when the team pointers lead from a
    manager back to the same manager, [showDetails] does not return,
    however deep its calls may nest, neither on that manager nor on any
    employee from which that manager can be reached. *)
Theorem showDetails_at_cycle_never_returns (st : Store) (p q : EmployeePtr)
    (fuel : nat) :
  tc (child st) p p → rtc (child st) q p →
  showDetails_at fuel st q = None.
Proof. apply cycle_never_returns_aux. Qed.

Lemma showDetails_at_cycle_never_returns_witness :
  showDetails_at 7 [ManagerObject "A" [1]; ManagerObject "B" [0];
                    ManagerObject "C" [1]] 2 = None.
Proof.
  apply (showDetails_at_cycle_never_returns
           [ManagerObject "A" [1]; ManagerObject "B" [0]; ManagerObject "C" [1]]
           0 2 7).
  - apply (tc_l _ 0 1 0); [|apply tc_once];
      eexists _, _; (split; [reflexivity|]); by apply list_elem_of_here.
  - apply (rtc_l _ 2 1 0); [|apply rtc_once];
      eexists _, _; (split; [reflexivity|]); by apply list_elem_of_here.
Defined.

Lemma addEmployee_at_Manager st m p name team :
  st !! m = Some (ManagerObject name team) →
  addEmployee_at m p st = <[m := ManagerObject name (team ++ [p])]> st.
Proof. intros Hm. unfold addEmployee_at. by rewrite Hm. Qed.

Lemma addEmployee_at_lookup_ne st m p a :
  a ≠ m → addEmployee_at m p st !! a = st !! a.
Proof.
  intros Hne. unfold addEmployee_at.
  destruct (st !! m) as [[| |name team]|]; try done.
  by rewrite list_lookup_insert_ne.
Qed.

(** The team pointers that were there are there after an addition. *)
Lemma child_addEmployee_at st m p a b :
  child st a b → child (addEmployee_at m p st) a b.
Proof.
  intros (name & team & Ha & Hb). destruct (decide (a = m)) as [->|Hne].
  - exists name, (team ++ [p]). rewrite (addEmployee_at_Manager _ _ _ name team Ha).
    split; [|by apply elem_of_app; left].
    apply list_lookup_insert_eq. by apply lookup_lt_Some in Ha.
  - exists name, team. by rewrite addEmployee_at_lookup_ne.
Qed.

(** X12. Adding to a manager an employee from which that manager can be
    reached, the manager itself for one, closes a cycle: from then on
    [showDetails] on that manager does not return. *)
Theorem addEmployee_at_closes_cycle (st : Store) (m p : EmployeePtr)
    (name : string) (team : list EmployeePtr) (fuel : nat) :
  st !! m = Some (ManagerObject name team) →
  rtc (child st) p m →
  showDetails_at fuel (addEmployee_at m p st) m = None.
Proof.
  intros Hm Hreach.
  apply (cycle_never_returns_aux _ m m fuel); [|done].
  apply (tc_rtc_r m p m).
  - apply tc_once. exists name, (team ++ [p]).
    rewrite (addEmployee_at_Manager _ _ _ name team Hm).
    split; [|apply elem_of_app; right; by apply list_elem_of_here].
    apply list_lookup_insert_eq. by apply lookup_lt_Some in Hm.
  - eapply rtc_subrel; [|done]. intros a b. apply child_addEmployee_at.
Qed.

Lemma addEmployee_at_closes_cycle_witness :
  showDetails_at 5
    (addEmployee_at 0 0 [ManagerObject "Team Lead" []]) 0 = None.
Proof.
  apply (addEmployee_at_closes_cycle [ManagerObject "Team Lead" []] 0 0
           "Team Lead" [] 5); [reflexivity|apply rtc_refl].
Defined.

Lemma addEmployee_at_elsewhere_aux (st : Store) (m q p : EmployeePtr) (fuel : nat) :
  ¬ rtc (child st) p m →
  showDetails_at fuel (addEmployee_at m q st) p = showDetails_at fuel st p.
Proof.
  revert p. induction fuel as [|fuel IH]; intros p Hfar; [done|].
  assert (p ≠ m) as Hne by (intros ->; by apply Hfar).
  cbn [showDetails_at]. rewrite addEmployee_at_lookup_ne by done.
  destruct (st !! p) as [[| |name team]|] eqn:Hp; try done.
  assert (mapM (showDetails_at fuel (addEmployee_at m q st)) team
          = mapM (showDetails_at fuel st) team) as ->; [|done].
  apply Forall_mapM_ext, Forall_forall. intros c Hc. apply IH.
  intros Hreach. apply Hfar. apply (rtc_l _ p c m); [|done].
  by exists name, team.
Qed.

(** X13. What [showDetails] does on an employee is not changed by an
    addition to a manager that cannot be reached from that employee. *)
Theorem addEmployee_at_elsewhere (st : Store) (m q p : EmployeePtr) (fuel : nat) :
  ¬ rtc (child st) p m →
  showDetails_at fuel (addEmployee_at m q st) p = showDetails_at fuel st p.
Proof. apply addEmployee_at_elsewhere_aux. Qed.

Lemma not_reachable_from_leaf st p m name position :
  st !! p = Some (DeveloperObject name position) → p ≠ m →
  ¬ rtc (child st) p m.
Proof.
  intros Hp Hne Hreach.
  apply rtc_inv in Hreach as [->|(c & (? & ? & Hman & _) & _)]; [done|].
  congruence.
Qed.

Lemma addEmployee_at_elsewhere_witness :
  showDetails_at 3
    (addEmployee_at 1 0 [DeveloperObject "Alice" "Developer";
                         ManagerObject "Team Lead" []]) 0
  = showDetails_at 3 [DeveloperObject "Alice" "Developer";
                      ManagerObject "Team Lead" []] 0.
Proof.
  apply (addEmployee_at_elsewhere
           [DeveloperObject "Alice" "Developer"; ManagerObject "Team Lead" []]
           1 0 0 3).
  by apply (not_reachable_from_leaf _ 0 1 "Alice" "Developer").
Defined.

Lemma mapM_app_Some {A B} (f : A → option B) l1 l2 k1 k2 :
  mapM f l1 = Some k1 → mapM f l2 = Some k2 →
  mapM f (l1 ++ l2) = Some (k1 ++ k2).
Proof.
  intros H1%mapM_Some_1 H2%mapM_Some_1. apply mapM_Some_2. by apply Forall2_app.
Qed.

Lemma mapM_singleton_Some {A B} (f : A → option B) x y :
  f x = Some y → mapM f [x] = Some [y].
Proof. intros Hx. apply mapM_Some_2. by repeat constructor. Qed.

Lemma showDetails_at_Manager fuel st p name team :
  st !! p = Some (ManagerObject name team) →
  showDetails_at (S fuel) st p
  = outs ← mapM (showDetails_at fuel st) team;
    Some (("Manager: " +:+ name +:+ nl) :: concat outs).
Proof. intros Hp. cbn [showDetails_at]. by rewrite Hp. Qed.

(** X14. The objects are shared: an employee added to a manager after
    that manager joined the team of another is shown by the other as
    well, right after the lines the manager had before.  Here the outer
    manager's team is [pre], then the manager [m], then [post]; none of
    these, nor the members of [m], nor the new employee [p] reaches
    [m]. *)
Theorem outer_manager_shows_later_member (st : Store) (gm m p : EmployeePtr)
    (gname name : string) (pre post team : list EmployeePtr) (fuel : nat)
    (outs_pre outs_post : list stdout) (out_m out_p : stdout) :
  st !! gm = Some (ManagerObject gname (pre ++ m :: post)) →
  st !! m = Some (ManagerObject name team) →
  (∀ c, c ∈ pre ++ post ++ team ++ [p] → ¬ rtc (child st) c m) →
  mapM (showDetails_at (S fuel) st) pre = Some outs_pre →
  showDetails_at (S fuel) st m = Some out_m →
  mapM (showDetails_at (S fuel) st) post = Some outs_post →
  showDetails_at fuel st p = Some out_p →
  showDetails_at (S (S fuel)) st gm
  = Some (("Manager: " +:+ gname +:+ nl)
          :: concat outs_pre ++ out_m ++ concat outs_post)
  ∧ showDetails_at (S (S fuel)) (addEmployee_at m p st) gm
    = Some (("Manager: " +:+ gname +:+ nl)
            :: concat outs_pre ++ (out_m ++ out_p) ++ concat outs_post).
Proof.
  intros Hgm Hm Hfar Hpre Hout_m Hpost Hout_p.
  assert (gm ≠ m) as Hne.
  { intros ->. rewrite Hm in Hgm. injection Hgm as _ ->.
    apply (Hfar m); [|done]. rewrite !elem_of_app, elem_of_cons.
    right. right. left. right. by left. }
  set (st' := addEmployee_at m p st).
  assert (∀ c, c ∈ pre ++ post ++ team ++ [p] →
               ∀ k, showDetails_at k st' c = showDetails_at k st c) as Hsame.
  { intros c Hc k. apply addEmployee_at_elsewhere_aux. by apply Hfar. }
  assert (showDetails_at (S fuel) st' m = Some (out_m ++ out_p)) as Hout_m'.
  { rewrite (showDetails_at_Manager fuel st m name team Hm) in Hout_m.
    destruct (mapM (showDetails_at fuel st) team) as [outs|] eqn:Hteam; [|done].
    simpl in Hout_m. injection Hout_m as <-.
    rewrite (showDetails_at_Manager fuel st' m name (team ++ [p])).
    - assert (mapM (showDetails_at fuel st') (team ++ [p]) = Some (outs ++ [out_p]))
        as ->.
      { apply mapM_app_Some.
        - rewrite <- Hteam. apply Forall_mapM_ext, Forall_forall. intros c Hc.
          apply Hsame. rewrite !elem_of_app. right. right. by left.
        - apply mapM_singleton_Some. rewrite Hsame; [done|].
          rewrite !elem_of_app. right. right. right. by apply list_elem_of_here. }
      simpl. rewrite concat_app. simpl. by rewrite app_nil_r.
    - unfold st'. rewrite (addEmployee_at_Manager _ _ _ name team Hm).
      apply list_lookup_insert_eq. by apply lookup_lt_Some in Hm. }
  split.
  - rewrite (showDetails_at_Manager _ st gm gname _ Hgm).
    assert (mapM (showDetails_at (S fuel) st) (pre ++ m :: post)
            = Some (outs_pre ++ out_m :: outs_post)) as ->.
    { apply mapM_app_Some; [done|]. change (m :: post) with ([m] ++ post).
      apply (mapM_app_Some _ [m] post [out_m]); [|done].
      by apply mapM_singleton_Some. }
    simpl. by rewrite concat_app.
  - rewrite (showDetails_at_Manager _ st' gm gname (pre ++ m :: post)).
    + assert (mapM (showDetails_at (S fuel) st') (pre ++ m :: post)
              = Some (outs_pre ++ (out_m ++ out_p) :: outs_post)) as ->.
      { apply mapM_app_Some.
        - rewrite <- Hpre. apply Forall_mapM_ext, Forall_forall. intros c Hc.
          apply Hsame. rewrite !elem_of_app. by left.
        - change (m :: post) with ([m] ++ post).
          apply (mapM_app_Some _ [m] post [out_m ++ out_p]).
          + by apply mapM_singleton_Some.
          + rewrite <- Hpost. apply Forall_mapM_ext, Forall_forall. intros c Hc.
            apply Hsame. rewrite !elem_of_app. right. by left. }
      simpl. by rewrite concat_app.
    + unfold st'. by rewrite addEmployee_at_lookup_ne.
Qed.

Lemma outer_manager_shows_later_member_witness :
  let st := [ DeveloperObject "Alice" "Developer";
              ManagerObject "Team Lead" [];
              ManagerObject "General Manager" [1] ] in
  showDetails_at 3 st 2
  = Some (("Manager: " +:+ "General Manager" +:+ nl)
          :: concat [] ++ ["Manager: Team Lead" +:+ nl] ++ concat [])
  ∧ showDetails_at 3 (addEmployee_at 1 0 st) 2
    = Some (("Manager: " +:+ "General Manager" +:+ nl)
            :: concat []
               ++ (["Manager: Team Lead" +:+ nl]
                   ++ ["Developer: Alice, Position: Developer" +:+ nl])
               ++ concat []).
Proof.
  apply (outer_manager_shows_later_member
           [ DeveloperObject "Alice" "Developer";
             ManagerObject "Team Lead" [];
             ManagerObject "General Manager" [1] ]
           2 1 0 "General Manager" "Team Lead" [] [] [] 1 [] []
           ["Manager: Team Lead" +:+ nl]
           ["Developer: Alice, Position: Developer" +:+ nl]);
    try reflexivity.
  intros c Hc. simpl in Hc. apply list_elem_of_singleton in Hc as ->.
  by apply (not_reachable_from_leaf _ 0 1 "Alice" "Developer").
Defined.

End CompositeMore.

Module SingletonMore.
Import Singleton SingletonFacts.

(** X15. In whatever state of the process [getInstance] is called,
    [instance] being null or pointing to an allocated object: when
    [instance] is set the call returns it and changes nothing; when it
    is null the call allocates one object, prints its line once and
    sets [instance] to it.  Either way the result is not null, it is an
    allocated object, and every later call returns the same pointer and
    changes nothing. *)
Theorem getInstance_from_any_state (p : Process) (n : nat) :
  instance_valid p →
  let '(r, p1) := getInstance p in
  match instance p with
  | Some a => r = Some a ∧ p1 = p
  | None =>
      r = Some (allocated p)
      ∧ p1 = mkProcess (Some (allocated p)) (S (allocated p)) (cout p ++ [created])
  end
  ∧ (∃ a, r = Some a ∧ instance p1 = Some a ∧ a < allocated p1)
  ∧ instance_valid p1
  ∧ calls n p1 = (replicate n r, p1).
Proof.
  intros Hvalid. destruct (instance p) as [a|] eqn:Hinstance.
  - rewrite (getInstance_again p a Hinstance).
    split; [done|]. split; [exists a; eauto|]. split; [done|].
    by apply calls_again.
  - rewrite (getInstance_first p Hinstance).
    split; [done|]. split; [exists (allocated p); simpl; eauto|]. split.
    + intros a. simpl. intros [= <-]. lia.
    + by apply calls_again.
Qed.

Lemma getInstance_from_any_state_witness :
  let p := mkProcess (Some 3) 5 ["earlier output"] in
  let '(r, p1) := getInstance p in
  match instance p with
  | Some a => r = Some a ∧ p1 = p
  | None =>
      r = Some (allocated p)
      ∧ p1 = mkProcess (Some (allocated p)) (S (allocated p)) (cout p ++ [created])
  end
  ∧ (∃ a, r = Some a ∧ instance p1 = Some a ∧ a < allocated p1)
  ∧ instance_valid p1
  ∧ calls 4 p1 = (replicate 4 r, p1).
Proof.
  apply (getInstance_from_any_state (mkProcess (Some 3) 5 ["earlier output"]) 4).
  intros a. simpl. intros [= <-]. lia.
Defined.

End SingletonMore.

Module DecoratorMore.
Import Decorator.

Lemma append_empty_r (s : string) : s +:+ "" = s.
Proof.
  induction s as [|a s IH]; [done|].
  change (String a (s +:+ "") = String a s). by rewrite IH.
Qed.

Lemma rewrap_snoc ws w : rewrap (ws ++ [w]) = wrap w (rewrap ws).
Proof. unfold rewrap. by rewrite foldl_app. Qed.

Lemma rewrap_wrappers c : rewrap (wrappers c) = c.
Proof.
  induction c as [|c IH|c IH|c IH|c IH]; [done|..]; simpl;
    by rewrite rewrap_snoc, IH.
Qed.

Lemma wrappers_rewrap ws : wrappers (rewrap ws) = ws.
Proof.
  induction ws as [|w ws IH] using rev_ind; [done|].
  rewrite rewrap_snoc. destruct w; simpl; by rewrite IH.
Qed.

Lemma getDescription_rewrap ws :
  getDescription (rewrap ws) = foldl (λ s w, s +:+ suffix w) "Plain Coffee" ws.
Proof.
  induction ws as [|w ws IH] using rev_ind; [done|].
  rewrite rewrap_snoc, foldl_app. cbn [foldl]. rewrite <- IH.
  destruct w; cbn [wrap getDescription suffix]; [by rewrite append_empty_r|done..].
Qed.

Lemma getCost_rewrap ws :
  getCost (rewrap ws) = foldl (λ cost w, add_price w cost) 2.0%float ws.
Proof.
  induction ws as [|w ws IH] using rev_ind; [done|].
  rewrite rewrap_snoc, foldl_app. cbn [foldl]. rewrite <- IH. by destruct w.
Qed.

Lemma filter_Base_snoc ws w :
  filter (λ w, w ≠ Base) (ws ++ [w])
  = filter (λ w, w ≠ Base) ws ++ (if decide (w = Base) then [] else [w]).
Proof.
  rewrite filter_app, filter_cons, filter_nil.
  destruct (decide (w = Base)) as [->|Hne].
  - by rewrite decide_False by (intros Hne; by apply Hne).
  - by rewrite decide_True.
Qed.

Lemma getDescription_wrappers c :
  getDescription c = foldl (λ s w, s +:+ suffix w) "Plain Coffee" (wrappers c).
Proof. rewrite <- getDescription_rewrap. by rewrite rewrap_wrappers. Qed.

Lemma getCost_wrappers c :
  getCost c = foldl (λ cost w, add_price w cost) 2.0%float (wrappers c).
Proof. rewrite <- getCost_rewrap. by rewrite rewrap_wrappers. Qed.

Lemma without_Base_description ws :
  getDescription (rewrap (filter (λ w, w ≠ Base) ws)) = getDescription (rewrap ws).
Proof.
  induction ws as [|w ws IH] using rev_ind; [done|].
  rewrite filter_Base_snoc, (rewrap_snoc ws).
  destruct (decide (w = Base)) as [->|Hne].
  - by rewrite app_nil_r.
  - rewrite rewrap_snoc. destruct w; cbn [wrap getDescription]; by rewrite ?IH.
Qed.

Lemma without_Base_cost ws :
  getCost (rewrap (filter (λ w, w ≠ Base) ws)) = getCost (rewrap ws).
Proof.
  induction ws as [|w ws IH] using rev_ind; [done|].
  rewrite filter_Base_snoc, (rewrap_snoc ws).
  destruct (decide (w = Base)) as [->|Hne].
  - by rewrite app_nil_r.
  - rewrite rewrap_snoc. destruct w; cbn [wrap getCost]; by rewrite ?IH.
Qed.

(** X16. A coffee is the plain coffee and the decorators put around it,
    and can be rebuilt from them.  Its description is "Plain Coffee"
    followed by what each decorator appends, in the order the
    decorators were put on, and its cost is 2.0 with the decorators'
    prices added one at a time in that same order.  Layers of the base
    class [CoffeeDecorator] append nothing and add nothing: without
    them the description and the cost are the same. *)
Theorem coffee_is_its_wrappers (c : Coffee) :
  rewrap (wrappers c) = c
  ∧ (∀ ws, wrappers (rewrap ws) = ws)
  ∧ getDescription c = foldl (λ s w, s +:+ suffix w) "Plain Coffee" (wrappers c)
  ∧ getCost c = foldl (λ cost w, add_price w cost) 2.0%float (wrappers c)
  ∧ getDescription (rewrap (filter (λ w, w ≠ Base) (wrappers c))) = getDescription c
  ∧ getCost (rewrap (filter (λ w, w ≠ Base) (wrappers c))) = getCost c.
Proof.
  split; [apply rewrap_wrappers|]. split; [apply wrappers_rewrap|].
  split; [apply getDescription_wrappers|]. split; [apply getCost_wrappers|].
  rewrite without_Base_description, without_Base_cost.
  by rewrite rewrap_wrappers.
Qed.

End DecoratorMore.

Module PrototypeMore.
Import Prototype PrototypeFacts.





End PrototypeMore.
